(** * RealTimeDataManager (src/lib/real-time-data.ts)

    A shallow embedding of the client-side cache-and-subscription manager:
    the four maps of the class, the JavaScript runtime's table of live
    [setInterval] registrations, and every method of the class as a function
    on that state.

    Conventions of the embedding.
    - An [async] method is cut at its [await]s into run-to-completion
      segments; each segment is one function on the state.  The event loop
      interleaves segments of different calls, never the inside of one.
    - [Date.now()] is the argument [now] of a segment: millisecond readings
      are integers, and one segment reads one value of the clock.
    - [Math.pow(1.5, n) * 1000] is an exact dyadic rational for the exponents
      the class reaches in practice (3^n * 1000 < 2^53); it is kept in [Q].
    - [maxAge * 0.8] is 4000 for 5000 and 24000 for 30000 in IEEE doubles
      (both products round to the integer), so the comparison
      [age > maxAge * 0.8] on integer ages is [10 * age > 8 * maxAge]. *)

From Stdlib Require Import QArith.
From stdpp Require Import gmap strings list fin_maps.

Local Open Scope Z_scope.

(** ** Values *)

(** The payload [T] of the cache: what [response.json()] can produce.  An
    object or array is handed around by reference and never inspected. *)
Inductive JsVal :=
  | JNull
  | JBool (b : bool)
  | JNum (n : Z)
  | JStr (s : string)
  | JObj (ref : nat).

(** JavaScript truthiness, as tested by [if (cached ...)]. *)
Definition truthy (v : JsVal) : bool :=
  match v with
  | JNull => false
  | JBool b => b
  | JNum n => negb (n =? 0)
  | JStr s => negb (String.eqb s "")
  | JObj _ => true
  end.

(** What a promise can be rejected with. *)
Inductive JsErr :=
  | FetcherError (tag : string)   (* thrown by the caller's fetcher *)
  | NewError (message : string)   (* [new Error(message)] built by the class *)
  | Undefined.                    (* [lastError] before its first assignment *)

Inductive Outcome :=
  | Fulfilled (v : JsVal)
  | Rejected (e : JsErr).

(** A fetcher is a function reference ([fetcherId], what the interval closure
    keeps) and, for one [fetchData] call, the outcome of its i-th invocation. *)
Definition FetcherId := nat.
Definition Fetcher := nat -> Outcome.

(** A subscriber callback is a function reference; [Set] membership is by
    reference. *)
Definition Callback := nat.
Definition Handle := positive.

(** ** Data model *)

Record CacheEntry := mkCacheEntry {
  data : JsVal;
  timestamp : Z;
  expiresAt : Z
}.

Record LoaderState := mkLoaderState {
  isLoading : bool;
  lastFetch : Z;
  errorCount : nat;
  retryAfter : option Q
}.

(** The option bag of [fetchData]; [None] is an absent property. *)
Record Options := mkOptions {
  cacheDuration : option Z;
  critical : option bool;
  autoRefresh : option bool;
  retryOnError : option bool
}.

(** The closure handed to [setInterval] by [setupAutoRefresh]. *)
Record IntervalTask := mkIntervalTask {
  task_key : string;
  task_fetcher : FetcherId;
  task_options : Options;
  task_period : Z
}.

(** The four private maps of the class, then the runtime's timer table. *)
Record World := mkWorld {
  cache : gmap string CacheEntry;
  loaders : gmap string LoaderState;
  subscribers : gmap string (list Callback);
  refreshIntervals : gmap string Handle;
  timers : gmap Handle IntervalTask;
  nextHandle : Handle
}.

Definition emptyWorld : World :=
  mkWorld ∅ ∅ ∅ ∅ ∅ 1%positive.

Definition with_cache (c : gmap string CacheEntry) (w : World) : World :=
  mkWorld c (loaders w) (subscribers w) (refreshIntervals w) (timers w) (nextHandle w).
Definition with_loaders (l : gmap string LoaderState) (w : World) : World :=
  mkWorld (cache w) l (subscribers w) (refreshIntervals w) (timers w) (nextHandle w).
Definition with_subscribers (s : gmap string (list Callback)) (w : World) : World :=
  mkWorld (cache w) (loaders w) s (refreshIntervals w) (timers w) (nextHandle w).

(** ** Configuration *)

Definition defaultCacheDuration : Z := 30000.
Definition criticalDataCacheDuration : Z := 5000.
Definition maxRetries : nat := 3.
Definition backoffMultiplier : Q := 3 # 2.

(** [Math.pow(this.backoffMultiplier, n) * 1000], in lowest terms. *)
Definition backoffMs (n : nat) : Q :=
  Qred (Qpower backoffMultiplier (Z.of_nat n) * 1000).

(** Destructuring defaults of [fetchData]. *)
Definition cacheDurationOf (o : Options) : Z := default defaultCacheDuration (cacheDuration o).
Definition criticalOf (o : Options) : bool := default false (critical o).
Definition autoRefreshOf (o : Options) : bool := default true (autoRefresh o).
Definition retryOnErrorOf (o : Options) : bool := default true (retryOnError o).

Definition noOptions : Options := mkOptions None None None None.

(** ** Private helpers *)

Definition getFromCache (now : Z) (key : string) (w : World) : JsVal * World :=
  match cache w !! key with
  | None => (JNull, w)
  | Some entry =>
      if now >? expiresAt entry
      then (JNull, with_cache (delete key (cache w)) w)
      else (data entry, w)
  end.

Definition setCache (now : Z) (key : string) (d : JsVal) (duration : Z) (w : World) : World :=
  with_cache (<[key := mkCacheEntry d now (now + duration)]> (cache w)) w.

Definition shouldRefresh (now : Z) (key : string) (crit : bool) (w : World) : bool :=
  match cache w !! key with
  | None => true
  | Some entry =>
      let age := now - timestamp entry in
      let maxAge := if crit then criticalDataCacheDuration else defaultCacheDuration in
      10 * age >? 8 * maxAge
  end.

Definition getLoaderState (key : string) (w : World) : LoaderState :=
  default (mkLoaderState false 0 0%nat None) (loaders w !! key).

Definition setLoaderState (key : string) (s : LoaderState) (w : World) : World :=
  with_loaders (<[key := s]> (loaders w)) w.

(** *** executeWithRetry

    The loop touches no field of the class after reading [errorCount], so the
    whole [async] function is one big step over the fetcher's outcomes: what
    it settles with, how many times it called the fetcher, and the delays it
    passed to [setTimeout] between the calls. *)

Record RetryRun := mkRetryRun {
  settled : Outcome;
  fetcherCalls : nat;
  delays : list Q
}.

(** [for (attempt; attempt <= maxRetries; attempt++)], [fuel] iterations left. *)
Fixpoint retryLoop (fetcher : Fetcher) (fuel attempt : nat) (lastError : JsErr) : RetryRun :=
  match fuel with
  | O => mkRetryRun (Rejected lastError) 0 []
  | S fuel' =>
      match fetcher attempt with
      | Fulfilled v => mkRetryRun (Fulfilled v) 1 []
      | Rejected e =>
          let rest := retryLoop fetcher fuel' (S attempt) e in
          mkRetryRun (settled rest) (S (fetcherCalls rest))
            ((if (attempt <? maxRetries)%nat then [backoffMs attempt] else []) ++ delays rest)
      end
  end.

Definition executeWithRetry (fetcher : Fetcher) (key : string) (retry : bool) (w : World) : RetryRun :=
  let state := getLoaderState key w in
  if negb retry || (maxRetries <=? errorCount state)%nat
  then mkRetryRun (fetcher 0%nat) 1 []
  else retryLoop fetcher (S maxRetries) 0 Undefined.

(** *** notifySubscribers

    [Set.forEach] visits the callbacks in insertion order.  A callback either
    returns or throws ([throws cb v]) and does not call back into the
    manager while it is being notified; a throw is caught and logged. *)

Inductive Effect :=
  | Called (cb : Callback) (v : JsVal)          (* callback(data) was invoked *)
  | ConsoleError (what : string)
  | ConsoleWarn (what : string).

Definition notifyOne (throws : Callback -> JsVal -> bool) (d : JsVal) (cb : Callback) : list Effect :=
  Called cb d :: (if throws cb d then [ConsoleError "Subscriber callback error:"] else []).

Definition notifySubscribers (throws : Callback -> JsVal -> bool)
    (key : string) (d : JsVal) (w : World) : list Effect :=
  match subscribers w !! key with
  | None => []
  | Some subs => concat (map (notifyOne throws d) subs)
  end.

(** *** setupAutoRefresh *)

Definition clearInterval (h : Handle) (w : World) : World :=
  mkWorld (cache w) (loaders w) (subscribers w) (refreshIntervals w)
          (delete h (timers w)) (nextHandle w).

(** [setInterval(task, period)]: a fresh handle, registered in the table. *)
Definition setInterval (task : IntervalTask) (w : World) : Handle * World :=
  let h := nextHandle w in
  (h, mkWorld (cache w) (loaders w) (subscribers w) (refreshIntervals w)
              (<[h := task]> (timers w)) (Pos.succ h)).

Definition with_refreshIntervals (r : gmap string Handle) (w : World) : World :=
  mkWorld (cache w) (loaders w) (subscribers w) r (timers w) (nextHandle w).

(** [options.cacheDuration || this.defaultCacheDuration]: 0 is falsy. *)
Definition periodOf (o : Options) : Z :=
  match cacheDuration o with
  | Some d => if d =? 0 then defaultCacheDuration else d
  | None => defaultCacheDuration
  end.

Definition setupAutoRefresh (key : string) (f : FetcherId) (o : Options) (w : World) : World :=
  let w1 := match refreshIntervals w !! key with
            | Some existingInterval => clearInterval existingInterval w
            | None => w
            end in
  let '(interval, w2) := setInterval (mkIntervalTask key f o (periodOf o)) w1 in
  with_refreshIntervals (<[key := interval]> (refreshIntervals w2)) w2.

(** ** fetchData, one run-to-completion segment at a time *)

(** How the synchronous prefix of [fetchData] leaves the call. *)
Inductive Entry :=
  | CacheHit (v : JsVal)                 (* [return cached] *)
  | AwaitLoader                          (* [return this.waitForLoader(key)] *)
  | Fetching (loaderState : LoaderState). (* marked as loading; the fetcher runs *)

(** Lines 51-68: cache check, in-flight check, mark as loading. *)
Definition fetchData_begin (now : Z) (key : string) (o : Options) (w : World) : Entry * World :=
  let '(cached, w1) := getFromCache now key w in
  if truthy cached && negb (shouldRefresh now key (criticalOf o) w1)
  then (CacheHit cached, w1)
  else
    let loaderState := getLoaderState key w1 in
    if isLoading loaderState
    then (AwaitLoader, w1)
    else (Fetching loaderState,
          setLoaderState key (mkLoaderState true now (errorCount loaderState) None) w1).

(** Lines 73-91: the continuation after [executeWithRetry] fulfilled with [d];
    the call resolves with [d]. *)
Definition fetchData_then (throws : Callback -> JsVal -> bool) (now : Z)
    (key : string) (f : FetcherId) (o : Options) (d : JsVal) (w : World) : list Effect * World :=
  let w1 := setCache now key d (cacheDurationOf o) w in
  let fx := notifySubscribers throws key d w1 in
  let w2 := if autoRefreshOf o then setupAutoRefresh key f o w1 else w1 in
  (fx, setLoaderState key (mkLoaderState false now 0 None) w2).

(** Lines 93-115: the [catch] block, with the [loaderState] captured by the
    prefix; the call settles with the first component. *)
Definition fetchData_catch (now : Z) (key : string) (loaderState : LoaderState)
    (error : JsErr) (w : World) : Outcome * list Effect * World :=
  let newErrorCount := (errorCount loaderState + 1)%nat in
  let retryDelay := backoffMs newErrorCount in
  let w1 := setLoaderState key
              (mkLoaderState false now newErrorCount (Some (Qred (inject_Z now + retryDelay)))) w in
  match cache w1 !! key with
  | Some fallbackCache =>
      (Fulfilled (data fallbackCache),
       [ConsoleError "Data fetch failed"; ConsoleWarn "Using cached data due to fetch error"], w1)
  | None => (Rejected error, [ConsoleError "Data fetch failed"], w1)
  end.

(** *** waitForLoader: one firing of [checkLoader] (every 100 ms) *)

Inductive Poll :=
  | PollSettled (r : Outcome)
  | PollAgain.                 (* [setTimeout(checkLoader, 100)] *)

Definition checkLoader (now : Z) (key : string) (w : World) : Poll * World :=
  let state := getLoaderState key w in
  if negb (isLoading state)
  then
    let '(cached, w1) := getFromCache now key w in
    if truthy cached
    then (PollSettled (Fulfilled cached), w1)
    else (PollSettled (Rejected (NewError "Loader completed but no data available")), w1)
  else (PollAgain, w).

(** *** subscribe and the closure it returns *)

Definition subscribe (key : string) (callback : Callback) (w : World) : World :=
  let subs := default [] (subscribers w !! key) in
  let subs' := if decide (callback ∈ subs) then subs else subs ++ [callback] in
  with_subscribers (<[key := subs']> (subscribers w)) w.

Definition unsubscribe (key : string) (callback : Callback) (w : World) : World :=
  match subscribers w !! key with
  | None => w
  | Some subs =>
      let subs' := filter (λ c, c ≠ callback) subs in
      let w1 := with_subscribers (<[key := subs']> (subscribers w)) w in
      if (length subs' =? 0)%nat
      then
        let w2 := with_subscribers (delete key (subscribers w1)) w1 in
        match refreshIntervals w2 !! key with
        | Some interval =>
            let w3 := clearInterval interval w2 in
            with_refreshIntervals (delete key (refreshIntervals w3)) w3
        | None => w2
        end
      else w1
  end.

(** *** The interval callback armed by [setupAutoRefresh] *)

(** [{ ...options, autoRefresh: false }] *)
Definition withoutAutoRefresh (o : Options) : Options :=
  mkOptions (cacheDuration o) (critical o) (Some false) (retryOnError o).

(** One firing of interval [h].  A cleared interval does not fire; a live one
    enters [fetchData] only while its key has a subscriber. *)
Definition intervalFires (now : Z) (h : Handle) (w : World) : option (IntervalTask * Entry) * World :=
  match timers w !! h with
  | None => (None, w)
  | Some task =>
      match subscribers w !! task_key task with
      | Some (_ :: _) =>
          let '(e, w1) := fetchData_begin now (task_key task)
                            (withoutAutoRefresh (task_options task)) w in
          (Some (task, e), w1)
      | _ => (None, w)
      end
  end.

(** *** destroy *)

Definition destroy (w : World) : World :=
  mkWorld ∅ ∅ ∅ ∅
    (map_fold (λ _ interval t, delete interval t) (timers w) (refreshIntervals w))
    (nextHandle w).

(** The continuation of an entered call once [executeWithRetry] has settled
    with [r]: the rest of the [try] block, or the [catch] block. *)
Definition fetchData_continue (throws : Callback -> JsVal -> bool) (now : Z)
    (key : string) (f : FetcherId) (o : Options) (loaderState : LoaderState)
    (r : Outcome) (w : World) : Outcome * list Effect * World :=
  match r with
  | Fulfilled d =>
      let '(fx, w1) := fetchData_then throws now key f o d w in (Fulfilled d, fx, w1)
  | Rejected e => fetchData_catch now key loaderState e w
  end.

(** ** The event loop

    Every run-to-completion segment that can touch the manager, as an event
    the runtime may schedule at time [now].  A trace is any list of timed
    events: the properties proved over traces hold however callers, promise
    settlements and timers interleave. *)

Inductive Event :=
  | EvFetchData (key : string) (o : Options)
      (* someone enters [fetchData] *)
  | EvSettled (key : string) (f : FetcherId) (o : Options)
              (loaderState : LoaderState) (r : Outcome)
      (* [executeWithRetry] of an entered call settles with [r] *)
  | EvCheckLoader (key : string)
  | EvSubscribe (key : string) (callback : Callback)
  | EvUnsubscribe (key : string) (callback : Callback)
  | EvInterval (h : Handle)
  | EvDestroy.

Definition step (throws : Callback -> JsVal -> bool) (now : Z) (ev : Event) (w : World) : World :=
  match ev with
  | EvFetchData key o => (fetchData_begin now key o w).2
  | EvSettled key f o loaderState r => (fetchData_continue throws now key f o loaderState r w).2
  | EvCheckLoader key => (checkLoader now key w).2
  | EvSubscribe key callback => subscribe key callback w
  | EvUnsubscribe key callback => unsubscribe key callback w
  | EvInterval h => (intervalFires now h w).2
  | EvDestroy => destroy w
  end.

Definition run (throws : Callback -> JsVal -> bool) (evs : list (Z * Event)) (w : World) : World :=
  foldl (λ w te, step throws te.1 te.2 w) w evs.

(** ** A whole call

    [fetchData] entered at [t0]; if it runs the fetcher, the event loop runs
    the trace [evs] while the call awaits and the continuation runs at [t1].
    [outcome] is [None] for a call left polling the loader. *)

Record Report := mkReport {
  outcome : option Outcome;
  invocations : nat;          (* calls of the fetcher made by this call *)
  timeouts : list Q;          (* retry delays passed to [setTimeout] *)
  effects : list Effect
}.

Definition fetchData (throws : Callback -> JsVal -> bool) (t0 : Z)
    (evs : list (Z * Event)) (t1 : Z)
    (key : string) (f : FetcherId) (fetcher : Fetcher) (o : Options) (w : World) : Report * World :=
  match fetchData_begin t0 key o w with
  | (CacheHit v, w1) => (mkReport (Some (Fulfilled v)) 0 [] [], w1)
  | (AwaitLoader, w1) => (mkReport None 0 [] [], w1)
  | (Fetching loaderState, w1) =>
      let retried := executeWithRetry fetcher key (retryOnErrorOf o) w1 in
      let '(r, fx, w2) := fetchData_continue throws t1 key f o loaderState (settled retried)
                            (run throws evs w1) in
      (mkReport (Some r) (fetcherCalls retried) (delays retried) fx, w2)
  end.

(** Worlds the class can be in: reached from a fresh instance by a trace. *)
Definition reachable (throws : Callback -> JsVal -> bool) (w : World) : Prop :=
  ∃ evs, w = run throws evs emptyWorld.

(** Representation invariant: a subscriber [Set] stored in the map is a
    non-empty list without repetition, every live interval is the one its
    key records, and a handle not yet issued is not live. *)
Record World_ok (w : World) : Prop := mkWorld_ok {
  subs_set : ∀ key subs, subscribers w !! key = Some subs → NoDup subs ∧ subs ≠ [];
  timers_recorded : ∀ h task,
    timers w !! h = Some task → refreshIntervals w !! task_key task = Some h;
  handles_issued : ∀ h task, timers w !! h = Some task → (h < nextHandle w)%positive
}.

(** Number of invocations of callback [cb] in a log. *)
Definition calledBy (cb : Callback) (fx : Effect) : bool :=
  match fx with
  | Called c _ => (c =? cb)%nat
  | _ => false
  end.

Definition timesCalled (cb : Callback) (log : list Effect) : nat :=
  length (filter (λ fx, calledBy cb fx = true) log).

(** The only event that stores a cache entry for [key]: the continuation of
    a call for [key] whose fetch was fulfilled. *)
Definition storesEntry (key : string) (ev : Event) : bool :=
  match ev with
  | EvSettled k _ _ _ (Fulfilled _) => String.eqb k key
  | _ => false
  end.

(** A trace that runs while a call entered at [t0] is in flight: whatever is
    stored meanwhile is stored no earlier than [t0], for a duration that is
    not negative. *)
Definition storesAfter (t0 : Z) (te : Z * Event) : bool :=
  match te.2 with
  | EvSettled _ _ o _ (Fulfilled _) => (t0 <=? te.1) && (0 <=? cacheDurationOf o)
  | _ => true
  end.

(** A segment that leaves the subscriber sets and the timers alone. *)
Definition sameRegistry (w w' : World) : Prop :=
  subscribers w' = subscribers w ∧ refreshIntervals w' = refreshIntervals w ∧
  timers w' = timers w ∧ nextHandle w' = nextHandle w.

(** The only event that registers a subscriber for [key]. *)
Definition subscribesTo (key : string) (ev : Event) : bool :=
  match ev with
  | EvSubscribe k _ => String.eqb k key
  | _ => false
  end.

(** A loader state with another backoff deadline. *)
Definition setRetryAfter (ra : option Q) (ls : LoaderState) : LoaderState :=
  mkLoaderState (isLoading ls) (lastFetch ls) (errorCount ls) ra.

(** Events that end the in-flight state of [key]: the continuation of a call
    for [key], and [destroy]. *)
Definition releases (key : string) (ev : Event) : bool :=
  match ev with
  | EvSettled k _ _ _ _ => String.eqb k key
  | EvDestroy => true
  | _ => false
  end.

(** Events that can take away or replace the entry of [key] that expires at
    [deadline]: [destroy], a store for [key], and any lookup made after the
    deadline. *)
Definition disturbs (key : string) (deadline : Z) (te : Z * Event) : bool :=
  match te.2 with
  | EvDestroy => true
  | EvSettled k _ _ _ (Fulfilled _) => String.eqb k key
  | EvFetchData _ _ | EvCheckLoader _ | EvInterval _ => te.1 >? deadline
  | _ => false
  end.

(** ** More of the class: what the remaining properties speak about *)

(** [critical ? this.criticalDataCacheDuration : this.defaultCacheDuration],
    the [maxAge] of [shouldRefresh] for a call with options [o]. *)
Definition maxAgeOf (o : Options) : Z :=
  if criticalOf o then criticalDataCacheDuration else defaultCacheDuration.

(** How long after it was stored a value is served to calls made with the
    same options: up to its expiry, and up to 80% of [maxAge]. *)
Definition windowOf (o : Options) : Z :=
  Z.min (cacheDurationOf o) (8 * maxAgeOf o / 10).

(** The whole interval callback (lines 377-386): one firing of interval [h]
    at [t0].  While the key has a subscriber it calls
    [fetchData(key, fetcher, { ...options, autoRefresh: false })], which runs
    to its end at [t1] while the event loop runs [evs]; a rejection is
    logged, not rethrown.  [None]: the interval was cleared, or the key has
    no subscriber. *)
Definition intervalRefresh (throws : Callback -> JsVal -> bool) (t0 : Z)
    (evs : list (Z * Event)) (t1 : Z) (h : Handle) (fetcher : Fetcher) (w : World)
    : option Report * World :=
  match timers w !! h with
  | None => (None, w)
  | Some task =>
      match subscribers w !! task_key task with
      | Some (_ :: _) =>
          let '(rep, w1) := fetchData throws t0 evs t1 (task_key task) (task_fetcher task)
                              fetcher (withoutAutoRefresh (task_options task)) w in
          (Some (match outcome rep with
                 | Some (Rejected _) =>
                     mkReport (outcome rep) (invocations rep) (timeouts rep)
                       (effects rep ++ [ConsoleError "Auto-refresh failed"])
                 | _ => rep
                 end), w1)
      | _ => (None, w)
      end
  end.

(** The callbacks invoked in a log, in order. *)
Definition calledIds (log : list Effect) : list Callback :=
  omap (λ fx, match fx with Called c _ => Some c | _ => None end) log.

(** Calls of [fetchData] for one key made one after the other, each entered
    at the first time of its pair and continued at the second, nothing
    running in between. *)
Fixpoint repeatCalls (throws : Callback -> JsVal -> bool) (times : list (Z * Z))
    (key : string) (f : FetcherId) (fetcher : Fetcher) (o : Options) (w : World)
    : list Report * World :=
  match times with
  | [] => ([], w)
  | (t0, t1) :: rest =>
      let '(rep, w1) := fetchData throws t0 [] t1 key f fetcher o w in
      let '(reps, w2) := repeatCalls throws rest key f fetcher o w1 in
      (rep :: reps, w2)
  end.

(** What the class records about intervals, beyond [World_ok]: a recorded
    handle was issued, and is recorded for one key only. *)
Record Registry_ok (w : World) : Prop := mkRegistry_ok {
  recorded_issued : ∀ k h, refreshIntervals w !! k = Some h → (h < nextHandle w)%positive;
  recorded_once : ∀ k1 k2 h,
    refreshIntervals w !! k1 = Some h → refreshIntervals w !! k2 = Some h → k1 = k2
}.

(** *** The convenience methods (lines 150-257)

    Each builds a cache key, a fetcher closure around [fetch], and a fixed
    option bag, and calls [fetchData].  [Http] is the boundary: what the
    i-th request of one call is answered with. *)

Inductive HttpAnswer :=
  | NetworkFailure (tag : string)
      (* [fetch] rejects *)
  | HttpResponse (ok : bool) (statusText : string) (body : option JsVal).
      (* a response; [body] is [None] when [response.json()] rejects *)

Definition Http := nat -> HttpAnswer.

(** The closure of [getAvailableCredits]: it checks [response.ok]. *)
Definition creditsFetcher (http : Http) : Fetcher := λ i,
  match http i with
  | NetworkFailure tag => Rejected (FetcherError tag)
  | HttpResponse ok statusText body =>
      if ok
      then match body with
           | Some v => Fulfilled v
           | None => Rejected (FetcherError "SyntaxError")
           end
      else Rejected (NewError ("Failed to fetch credits: " +:+ statusText))
  end.

(** The closure of the other four methods: [return response.json()],
    whatever the status. *)
Definition jsonFetcher (http : Http) : Fetcher := λ i,
  match http i with
  | NetworkFailure tag => Rejected (FetcherError tag)
  | HttpResponse _ _ body =>
      match body with
      | Some v => Fulfilled v
      | None => Rejected (FetcherError "SyntaxError")
      end
  end.

(** [`credits:${JSON.stringify(filters)}`], given the serialised filters. *)
Definition creditsKey (filtersJson : string) : string := "credits:" +:+ filtersJson.
Definition creditsOptions : Options :=
  mkOptions (Some defaultCacheDuration) (Some true) (Some true) None.

Definition getAvailableCredits (throws : Callback -> JsVal -> bool) (t0 : Z)
    (evs : list (Z * Event)) (t1 : Z) (f : FetcherId) (http : Http)
    (filtersJson : string) (w : World) : Report * World :=
  fetchData throws t0 evs t1 (creditsKey filtersJson) f (creditsFetcher http) creditsOptions w.

(** [`projects:${status}:${userRole}`] *)
Definition projectsKey (status userRole : string) : string :=
  "projects:" +:+ status +:+ ":" +:+ userRole.
Definition projectsOptions : Options := mkOptions (Some 15000) None (Some true) None.

Definition getProjectsByStatus (throws : Callback -> JsVal -> bool) (t0 : Z)
    (evs : list (Z * Event)) (t1 : Z) (f : FetcherId) (http : Http)
    (status userRole : string) (w : World) : Report * World :=
  fetchData throws t0 evs t1 (projectsKey status userRole) f (jsonFetcher http) projectsOptions w.

(** [`donations:${projectId}`] *)
Definition donationsKey (projectId : string) : string := "donations:" +:+ projectId.
Definition donationsOptions : Options := mkOptions (Some 60000) None (Some false) None.

Definition getProjectDonations (throws : Callback -> JsVal -> bool) (t0 : Z)
    (evs : list (Z * Event)) (t1 : Z) (f : FetcherId) (http : Http)
    (projectId : string) (w : World) : Report * World :=
  fetchData throws t0 evs t1 (donationsKey projectId) f (jsonFetcher http) donationsOptions w.

Definition insightsKey : string := "market:insights".
Definition insightsOptions : Options :=
  mkOptions (Some criticalDataCacheDuration) (Some true) (Some true) None.

Definition getMarketInsights (throws : Callback -> JsVal -> bool) (t0 : Z)
    (evs : list (Z * Event)) (t1 : Z) (f : FetcherId) (http : Http)
    (w : World) : Report * World :=
  fetchData throws t0 evs t1 insightsKey f (jsonFetcher http) insightsOptions w.

(** [`profile:${userId}:${role}`] *)
Definition profileKey (userId role : string) : string :=
  "profile:" +:+ userId +:+ ":" +:+ role.
Definition profileOptions : Options := mkOptions (Some 120000) None (Some false) None.

Definition getUserProfile (throws : Callback -> JsVal -> bool) (t0 : Z)
    (evs : list (Z * Event)) (t1 : Z) (f : FetcherId) (http : Http)
    (userId role : string) (w : World) : Report * World :=
  fetchData throws t0 evs t1 (profileKey userId role) f (jsonFetcher http) profileOptions w.

(** The character [:] that separates the parts of a key. *)
Definition colon : Ascii.ascii := Ascii.Ascii false true false true true true false false.

(** Whether the character [c] occurs in [s]. *)
Fixpoint occurs (c : Ascii.ascii) (s : string) : bool :=
  match s with
  | EmptyString => false
  | String a rest => Ascii.eqb a c || occurs c rest
  end.

(** *** CreditPurchaseOptimizer.selectOptimalCombination (lines 510-542)

    Quantities are integers (exact in a double below 2^53; every
    intermediate quantity is bounded by an input).  [availableQuantity] is
    [None] for a credit without that field: [Math.min(undefined, _)] is
    [NaN] and [NaN > 0] is false.  The cost is floating point: its
    operations are parameters, nothing is assumed about them. *)

Record Credit := mkCredit {
  serialNumber : string;
  availableQuantity : option Z;
  pricePerCredit : string
}.

Section Optimizer.

Context {Num : Type}.
Context (parseFloat : string -> Num) (ofZ : Z -> Num).
Context (add mul div : Num -> Num -> Num).

Record Combination := mkCombination {
  credits : list (Credit * Z);     (* [{ ...credit, selectedQuantity }] *)
  totalQuantity : Z;
  totalCost : Num;
  averagePrice : Num
}.

(** The [for] loop, with its three accumulators. *)
Fixpoint selectLoop (rest : list Credit) (quantity : Z)
    (selected : list (Credit * Z)) (total : Z) (cost : Num) : list (Credit * Z) * Z * Num :=
  match rest with
  | [] => (selected, total, cost)
  | credit :: rest' =>
      if total >=? quantity
      then (selected, total, cost)
      else
        match availableQuantity credit with
        | Some available =>
            let canAdd := Z.min available (quantity - total) in
            if canAdd >? 0
            then selectLoop rest' quantity (selected ++ [(credit, canAdd)]) (total + canAdd)
                   (add cost (mul (ofZ canAdd) (parseFloat (pricePerCredit credit))))
            else selectLoop rest' quantity selected total cost
        | None => selectLoop rest' quantity selected total cost
        end
  end.

Definition selectOptimalCombination (available : list Credit) (quantity : Z) : Combination :=
  let '(selected, total, cost) := selectLoop available quantity [] 0 (ofZ 0) in
  mkCombination selected total cost (div cost (ofZ total)).

End Optimizer.

Definition sumZ (l : list Z) : Z := foldr Z.add 0 l.

(** What the credits of a list can supply: the positive quantities. *)
Definition supply (available : list Credit) : Z :=
  foldr (λ c acc, match availableQuantity c with
                  | Some a => Z.max 0 a + acc
                  | None => acc
                  end) 0 available.

Definition sellable (c : Credit) : bool :=
  match availableQuantity c with
  | Some a => a >? 0
  | None => false
  end.

(** Settle a goal that hangs on one comparison [a >? b] of clock values. *)
Ltac gtb_cases a b := destruct (Z.gtb_spec a b); [try done; try lia | try done; try lia].

(** * Properties *)

(** ** The retry loop *)

Lemma backoffMs_formula (n : nat) :
  (backoffMs n == Qpower backoffMultiplier (Z.of_nat n) * 1000)%Q.
Proof. unfold backoffMs. apply Qred_correct. Qed.

Lemma retryLoop_calls fetcher fuel attempt lastError :
  (fetcherCalls (retryLoop fetcher fuel attempt lastError) ≤ fuel)%nat ∧
  (0 < fuel → 0 < fetcherCalls (retryLoop fetcher fuel attempt lastError))%nat.
Proof.
  revert attempt lastError.
  induction fuel as [|fuel IH]; intros attempt lastError; simpl; [lia|].
  destruct (fetcher attempt) as [v|e]; simpl; [lia|].
  destruct (IH (S attempt) e). lia.
Qed.

(** Between consecutive attempts the loop sleeps [backoffMs attempt]. *)
Lemma retryLoop_delays fetcher fuel attempt lastError :
  (attempt + fuel = S maxRetries)%nat →
  delays (retryLoop fetcher fuel attempt lastError)
  = map backoffMs (seq attempt (fetcherCalls (retryLoop fetcher fuel attempt lastError) - 1)).
Proof.
  revert attempt lastError.
  induction fuel as [|fuel IH]; intros attempt lastError Hsum; simpl; [done|].
  destruct (fetcher attempt) as [v|e]; simpl; [done|].
  rewrite IH by lia. rewrite Nat.sub_0_r.
  pose proof (retryLoop_calls fetcher fuel (S attempt) e) as [Hle Hpos].
  destruct fuel as [|fuel'].
  - simpl. replace (attempt <? maxRetries)%nat with false; [done|].
    symmetry. apply Nat.ltb_ge. lia.
  - replace (attempt <? maxRetries)%nat with true
      by (symmetry; apply Nat.ltb_lt; lia).
    specialize (Hpos ltac:(lia)).
    destruct (fetcherCalls (retryLoop fetcher (S fuel') (S attempt) e)) as [|n] eqn:Hn; [lia|].
    simpl. by rewrite Nat.sub_0_r.
Qed.

(** Every attempt before the last one made was rejected. *)
Lemma retryLoop_failures fetcher fuel attempt lastError i :
  (i < fetcherCalls (retryLoop fetcher fuel attempt lastError) - 1)%nat →
  ∃ e, fetcher (attempt + i)%nat = Rejected e.
Proof.
  revert attempt lastError i.
  induction fuel as [|fuel IH]; intros attempt lastError i; simpl; [lia|].
  destruct (fetcher attempt) as [v|e] eqn:Hf; simpl; [lia|].
  rewrite Nat.sub_0_r. intros Hi.
  destruct i as [|i].
  - rewrite Nat.add_0_r. eauto.
  - replace (attempt + S i)%nat with (S attempt + i)%nat by lia.
    apply (IH (S attempt) e). lia.
Qed.

(** The loop settles with the outcome of the last attempt it made. *)
Lemma retryLoop_settled fetcher fuel attempt lastError :
  (0 < fuel)%nat →
  settled (retryLoop fetcher fuel attempt lastError)
  = fetcher (attempt + (fetcherCalls (retryLoop fetcher fuel attempt lastError) - 1))%nat.
Proof.
  revert attempt lastError.
  induction fuel as [|fuel IH]; intros attempt lastError Hpos; simpl; [lia|].
  destruct (fetcher attempt) as [v|e] eqn:Hf; simpl.
  - by rewrite Nat.add_0_r.
  - rewrite Nat.sub_0_r.
    destruct fuel as [|fuel'].
    + simpl. by rewrite Nat.add_0_r.
    + rewrite IH by lia.
      pose proof (retryLoop_calls fetcher (S fuel') (S attempt) e) as [_ Hp].
      specialize (Hp ltac:(lia)). f_equal. lia.
Qed.

(** Stopping early means the last attempt was fulfilled. *)
Lemma retryLoop_early fetcher fuel attempt lastError :
  (fetcherCalls (retryLoop fetcher fuel attempt lastError) < fuel)%nat →
  ∃ v, settled (retryLoop fetcher fuel attempt lastError) = Fulfilled v.
Proof.
  revert attempt lastError.
  induction fuel as [|fuel IH]; intros attempt lastError; simpl; [lia|].
  destruct (fetcher attempt) as [v|e]; simpl; [eauto|].
  intros H. apply IH. lia.
Qed.

(** A fetcher that fails on every attempt makes [executeWithRetry] reject
    with the error of the last attempt made; the retry loop makes all four. *)
Lemma executeWithRetry_all_rejected (fetcher : Fetcher) key retry w :
  (∀ i, ∃ e, fetcher i = Rejected e) →
  let r := executeWithRetry fetcher key retry w in
  ∃ e, settled r = Rejected e ∧ fetcher (fetcherCalls r - 1)%nat = Rejected e ∧
       (retry = true → (errorCount (getLoaderState key w) < maxRetries)%nat →
        fetcherCalls r = S maxRetries).
Proof.
  intros Hall r. subst r. unfold executeWithRetry.
  destruct (negb retry || (maxRetries <=? errorCount (getLoaderState key w))%nat) eqn:Hmode.
  - destruct (Hall 0%nat) as [e He]. exists e. simpl. repeat split; [done..|].
    intros -> Hlt. cbn [negb orb] in Hmode. apply Nat.leb_le in Hmode. lia.
  - set (r := retryLoop fetcher (S maxRetries) 0 Undefined).
    pose proof (retryLoop_settled fetcher (S maxRetries) 0 Undefined ltac:(lia)) as Hs.
    fold r in Hs. simpl in Hs.
    destruct (Hall (fetcherCalls r - 1)%nat) as [e He].
    exists e. rewrite Hs. repeat split; [done..|]. intros _ _.
    pose proof (retryLoop_calls fetcher (S maxRetries) 0 Undefined) as [Hle _].
    fold r in Hle.
    destruct (decide (fetcherCalls r = S maxRetries)) as [|Hne]; [done|].
    destruct (retryLoop_early fetcher (S maxRetries) 0 Undefined) as [v Hv]; [fold r; lia|].
    fold r in Hv. congruence.
Qed.

(** ** The cache lookup *)

Lemma getFromCache_frame now key w :
  let w' := (getFromCache now key w).2 in
  loaders w' = loaders w ∧ subscribers w' = subscribers w ∧
  refreshIntervals w' = refreshIntervals w ∧ timers w' = timers w ∧
  nextHandle w' = nextHandle w.
Proof.
  unfold getFromCache. destruct (cache w !! key) as [entry|]; simpl; [|done].
  destruct (now >? expiresAt entry); simpl; done.
Qed.

Lemma getLoaderState_getFromCache now key k w :
  getLoaderState k (getFromCache now key w).2 = getLoaderState k w.
Proof.
  unfold getLoaderState.
  by destruct (getFromCache_frame now key w) as (-> & _).
Qed.

Lemma getFromCache_live now key w e :
  cache w !! key = Some e → now ≤ expiresAt e →
  getFromCache now key w = (data e, w).
Proof.
  intros He Hlive. unfold getFromCache. rewrite He.
  gtb_cases now (expiresAt e).
Qed.

Lemma getFromCache_expired now key w e :
  cache w !! key = Some e → now > expiresAt e →
  getFromCache now key w = (JNull, with_cache (delete key (cache w)) w).
Proof.
  intros He Hdead. unfold getFromCache. rewrite He.
  gtb_cases now (expiresAt e).
Qed.

(** After the lookup the key holds no entry past its [expiresAt], and an
    entry that is still there is the one that was there before. *)
Lemma getFromCache_cache now key w e :
  cache (getFromCache now key w).2 !! key = Some e →
  cache w !! key = Some e ∧ now ≤ expiresAt e.
Proof.
  unfold getFromCache. destruct (cache w !! key) as [e0|] eqn:He0; simpl.
  - destruct (now >? expiresAt e0) eqn:Hcmp; simpl.
    + by rewrite lookup_delete_eq.
    + rewrite He0. intros [= ->]. split; [done|].
      gtb_cases now (expiresAt e).
  - by rewrite He0.
Qed.

(** The lookup never adds an entry, for any key. *)
Lemma getFromCache_shrinks now k w key e :
  cache (getFromCache now k w).2 !! key = Some e → cache w !! key = Some e.
Proof.
  unfold getFromCache. destruct (cache w !! k) as [e0|] eqn:He0; simpl; [|done].
  destruct (now >? expiresAt e0); simpl; [|done].
  rewrite lookup_delete. by case_decide.
Qed.

(** A lookup made no later than the entry's [expiresAt] keeps it. *)
Lemma getFromCache_keeps now k w key e :
  cache w !! key = Some e → now ≤ expiresAt e →
  cache (getFromCache now k w).2 !! key = Some e.
Proof.
  intros He Hlive. unfold getFromCache.
  destruct (cache w !! k) as [e0|] eqn:He0; simpl; [|done].
  destruct (Z.gtb_spec now (expiresAt e0)) as [Hdead|_]; simpl; [|done].
  rewrite lookup_delete_ne; [done|]. intros ->. rewrite He in He0.
  injection He0 as ->. lia.
Qed.

Lemma getFromCache_sameRegistry now key w : sameRegistry w (getFromCache now key w).2.
Proof. destruct (getFromCache_frame now key w) as (_ & ? & ? & ? & ?). done. Qed.

(** ** The synchronous prefix of fetchData *)

(** What the prefix of [fetchData] captures, and what [executeWithRetry]
    then reads back. *)
Lemma fetchData_begin_Fetching now key o w ls w1 :
  fetchData_begin now key o w = (Fetching ls, w1) →
  ls = getLoaderState key w ∧ isLoading ls = false ∧
  w1 = setLoaderState key (mkLoaderState true now (errorCount ls) None) (getFromCache now key w).2 ∧
  errorCount (getLoaderState key w1) = errorCount ls.
Proof.
  unfold fetchData_begin.
  pose proof (getLoaderState_getFromCache now key key w) as Hls.
  destruct (getFromCache now key w) as [cached w0]; simpl in *.
  destruct (truthy cached && negb (shouldRefresh now key (criticalOf o) w0)); [done|].
  destruct (isLoading (getLoaderState key w0)) eqn:Hload; [done|].
  intros [= <- <-]. rewrite <- Hls. repeat split; [done|].
  unfold getLoaderState at 1, setLoaderState; simpl.
  by rewrite lookup_insert_eq.
Qed.

Lemma fetchData_begin_cache now key o w :
  cache (fetchData_begin now key o w).2 = cache (getFromCache now key w).2.
Proof.
  unfold fetchData_begin. destruct (getFromCache now key w) as [cached w0]; simpl.
  destruct (truthy cached && negb (shouldRefresh now key (criticalOf o) w0)); [done|].
  by destruct (isLoading (getLoaderState key w0)).
Qed.

Lemma fetchData_begin_sameRegistry now key o w :
  sameRegistry w (fetchData_begin now key o w).2.
Proof.
  unfold fetchData_begin.
  pose proof (getFromCache_sameRegistry now key w) as H.
  destruct (getFromCache now key w) as [cached w0]; simpl in *.
  destruct (truthy cached && negb (shouldRefresh now key (criticalOf o) w0)); [done|].
  by destruct (isLoading (getLoaderState key w0)).
Qed.

Lemma fetchData_begin_keeps_loading now k o w key :
  isLoading (getLoaderState key w) = true →
  isLoading (getLoaderState key (fetchData_begin now k o w).2) = true.
Proof.
  intros Hbusy. unfold fetchData_begin.
  pose proof (getLoaderState_getFromCache now k key w) as Hkey.
  destruct (getFromCache now k w) as [cached w0]; simpl in *.
  rewrite <- Hkey in Hbusy.
  destruct (truthy cached && negb (shouldRefresh now k (criticalOf o) w0)); [done|].
  destruct (isLoading (getLoaderState k w0)) eqn:Hk; [done|]. simpl.
  unfold getLoaderState at 1, setLoaderState. simpl.
  rewrite lookup_insert. case_decide; [done|]. exact Hbusy.
Qed.

(** A call that finds the in-flight flag set never reaches the fetcher. *)
Lemma fetchData_begin_inflight now key o w :
  isLoading (getLoaderState key w) = true →
  (∃ e, cache w !! key = Some e ∧ now ≤ expiresAt e ∧
        fetchData_begin now key o w = (CacheHit (data e), w)) ∨
  fetchData_begin now key o w = (AwaitLoader, (getFromCache now key w).2).
Proof.
  intros Hbusy. unfold fetchData_begin.
  pose proof (getLoaderState_getFromCache now key key w) as Hls.
  destruct (cache w !! key) as [e|] eqn:He.
  - destruct (Z.gtb_spec now (expiresAt e)) as [Hdead|Hlive].
    + right. rewrite (getFromCache_expired _ _ _ _ He) in * by lia. simpl in *.
      by rewrite Hls, Hbusy.
    + rewrite (getFromCache_live _ _ _ _ He Hlive) in *. simpl in *.
      destruct (truthy (data e) && negb (shouldRefresh now key (criticalOf o) w)).
      * left. by exists e.
      * right. by rewrite Hbusy.
  - right. unfold getFromCache in *. rewrite He in *. simpl. by rewrite Hbusy.
Qed.

(** [retryAfter] is written by the [catch] block and read by nothing: the
    entry of a call is the same whatever deadline the loader state holds. *)
Lemma fetchData_begin_ignores_retryAfter now key o w ls ra :
  loaders w !! key = Some ls →
  let w' := setLoaderState key (setRetryAfter ra ls) w in
  match (fetchData_begin now key o w).1, (fetchData_begin now key o w').1 with
  | CacheHit v, CacheHit v' => v = v'
  | AwaitLoader, AwaitLoader => True
  | Fetching l, Fetching l' => l' = setRetryAfter ra l
  | _, _ => False
  end.
Proof.
  intros Hls w'. subst w'. unfold fetchData_begin, getFromCache.
  cbn [cache setLoaderState with_loaders].
  destruct (cache w !! key) as [e|]; [destruct (now >? expiresAt e)|]; cbn [fst snd].
  - cbn [truthy andb]. unfold getLoaderState. simpl.
    rewrite Hls, lookup_insert_eq. simpl. by destruct (isLoading ls).
  - unfold shouldRefresh. cbn [cache with_loaders].
    destruct (truthy (data e) && negb _); [done|].
    unfold getLoaderState. simpl.
    rewrite Hls, lookup_insert_eq. simpl. by destruct (isLoading ls).
  - cbn [truthy andb]. unfold getLoaderState. simpl.
    rewrite Hls, lookup_insert_eq. simpl. by destruct (isLoading ls).
Qed.

(** ** What the other segments leave alone *)

Lemma setupAutoRefresh_cache key f o w : cache (setupAutoRefresh key f o w) = cache w.
Proof. unfold setupAutoRefresh. by destruct (refreshIntervals w !! key). Qed.

Lemma setupAutoRefresh_subscribers key f o w :
  subscribers (setupAutoRefresh key f o w) = subscribers w.
Proof. unfold setupAutoRefresh. by destruct (refreshIntervals w !! key). Qed.

Lemma setupAutoRefresh_loaders key f o w : loaders (setupAutoRefresh key f o w) = loaders w.
Proof. unfold setupAutoRefresh. by destruct (refreshIntervals w !! key). Qed.

Lemma unsubscribe_cache key cb w : cache (unsubscribe key cb w) = cache w.
Proof.
  unfold unsubscribe. destruct (subscribers w !! key) as [subs|]; [|done].
  destruct (length (filter (λ c, c ≠ cb) subs) =? 0)%nat; [|done].
  cbv zeta. by destruct (refreshIntervals _ !! key).
Qed.

Lemma unsubscribe_loaders key cb w : loaders (unsubscribe key cb w) = loaders w.
Proof.
  unfold unsubscribe. destruct (subscribers w !! key) as [subs|]; [|done].
  destruct (length (filter (λ c, c ≠ cb) subs) =? 0)%nat; [|done].
  cbv zeta. by destruct (refreshIntervals _ !! key).
Qed.

Lemma fetchData_catch_cache now key ls err w :
  cache (fetchData_catch now key ls err w).2 = cache w.
Proof. unfold fetchData_catch. simpl. by destruct (cache w !! key). Qed.

Lemma fetchData_catch_sameRegistry now key ls err w :
  sameRegistry w (fetchData_catch now key ls err w).2.
Proof. unfold fetchData_catch. simpl. by destruct (cache w !! key). Qed.

Lemma checkLoader_shrinks now k w key e :
  cache (checkLoader now k w).2 !! key = Some e → cache w !! key = Some e.
Proof.
  unfold checkLoader. destruct (negb (isLoading (getLoaderState k w))); [|done].
  pose proof (getFromCache_shrinks now k w key e) as H.
  destruct (getFromCache now k w) as [cached w1]. simpl in H.
  by destruct (truthy cached).
Qed.

Lemma checkLoader_sameRegistry now key w : sameRegistry w (checkLoader now key w).2.
Proof.
  unfold checkLoader. destruct (negb (isLoading (getLoaderState key w))); [|done].
  pose proof (getFromCache_sameRegistry now key w) as H.
  destruct (getFromCache now key w) as [cached w1]. by destruct (truthy cached).
Qed.

(** The poll of a waiting caller once the flag is clear. *)
Lemma checkLoader_no_data now key w :
  isLoading (getLoaderState key w) = false →
  (∀ e, cache w !! key = Some e → now > expiresAt e) →
  (checkLoader now key w).1
  = PollSettled (Rejected (NewError "Loader completed but no data available")).
Proof.
  intros Hidle Hnone. unfold checkLoader. rewrite Hidle. cbn [negb].
  destruct (cache w !! key) as [e|] eqn:He.
  - by rewrite (getFromCache_expired _ _ _ _ He (Hnone e eq_refl)).
  - unfold getFromCache. by rewrite He.
Qed.

Lemma checkLoader_data now key w e :
  isLoading (getLoaderState key w) = false →
  cache w !! key = Some e → now ≤ expiresAt e → truthy (data e) = true →
  checkLoader now key w = (PollSettled (Fulfilled (data e)), w).
Proof.
  intros Hidle He Hlive Htruthy. unfold checkLoader. rewrite Hidle. cbn [negb].
  by rewrite (getFromCache_live _ _ _ _ He Hlive), Htruthy.
Qed.

Lemma intervalFires_shrinks now h w key e :
  cache (intervalFires now h w).2 !! key = Some e → cache w !! key = Some e.
Proof.
  unfold intervalFires. destruct (timers w !! h) as [task|]; [|done].
  destruct (subscribers w !! task_key task) as [[|c subs]|]; [done| |done].
  pose proof (fetchData_begin_cache now (task_key task)
                (withoutAutoRefresh (task_options task)) w) as Hc.
  destruct (fetchData_begin now (task_key task) _ w) as [en w1]. simpl in *.
  rewrite Hc. apply getFromCache_shrinks.
Qed.

Lemma intervalFires_sameRegistry now h w : sameRegistry w (intervalFires now h w).2.
Proof.
  unfold intervalFires. destruct (timers w !! h) as [task|]; [|done].
  destruct (subscribers w !! task_key task) as [[|c subs]|]; [done| |done].
  pose proof (fetchData_begin_sameRegistry now (task_key task)
                (withoutAutoRefresh (task_options task)) w) as H.
  by destruct (fetchData_begin now (task_key task) _ w).
Qed.

(** An interval enters [fetchData] only for a key that has a subscriber. *)
Lemma intervalFires_needs_subscriber now h w task e :
  (intervalFires now h w).1 = Some (task, e) →
  ∃ c subs, subscribers w !! task_key task = Some (c :: subs).
Proof.
  unfold intervalFires. destruct (timers w !! h) as [t|]; [|done].
  destruct (subscribers w !! task_key t) as [[|c subs]|] eqn:Hsubs; [done| |done].
  destruct (fetchData_begin now (task_key t) _ w) as [en w1]. simpl.
  intros [= <- _]. eauto.
Qed.

(** ** The representation invariant, segment by segment *)

Lemma World_ok_sameRegistry w w' : sameRegistry w w' → World_ok w → World_ok w'.
Proof.
  intros (Hs & Hr & Ht & Hn) [H1 H2 H3].
  split; rewrite ?Hs, ?Hr, ?Ht, ?Hn; done.
Qed.

Lemma World_ok_empty : World_ok emptyWorld.
Proof. split; intros *; unfold emptyWorld; simpl; by rewrite lookup_empty. Qed.

(** Arming replaces the key's interval: the old one is cleared, the new one
    gets a handle never issued before. *)
Lemma setupAutoRefresh_ok key f o w : World_ok w → World_ok (setupAutoRefresh key f o w).
Proof.
  intros [Hsubs Hrec Hiss]. unfold setupAutoRefresh.
  assert (Hlive : ∀ h task,
            timers (match refreshIntervals w !! key with
                    | Some existingInterval => clearInterval existingInterval w
                    | None => w
                    end) !! h = Some task →
            timers w !! h = Some task ∧ refreshIntervals w !! key ≠ Some h).
  { intros h task. destruct (refreshIntervals w !! key) as [old|] eqn:Hold; simpl.
    - rewrite lookup_delete. case_decide; [done|]. intros Ht. split; [done|]. congruence.
    - intros Ht. split; [done|]. congruence. }
  assert (Hsame : ∀ w0, w0 = match refreshIntervals w !! key with
                    | Some existingInterval => clearInterval existingInterval w
                    | None => w
                    end →
            subscribers w0 = subscribers w ∧ refreshIntervals w0 = refreshIntervals w ∧
            nextHandle w0 = nextHandle w).
  { intros w0 ->. by destruct (refreshIntervals w !! key). }
  set (w0 := match refreshIntervals w !! key with
             | Some existingInterval => clearInterval existingInterval w
             | None => w
             end) in *.
  destruct (Hsame w0 eq_refl) as (Hs0 & Hr0 & Hn0).
  split; simpl.
  - rewrite Hs0. apply Hsubs.
  - intros h task. rewrite lookup_insert. case_decide as Hh.
    + intros [= <-]. simpl. by rewrite lookup_insert_eq, Hh.
    + intros Ht. destruct (Hlive h task Ht) as [Hlive1 Hlive2].
      rewrite Hr0, lookup_insert. case_decide as Hk.
      * exfalso. apply Hlive2. rewrite Hk. by apply Hrec.
      * by apply Hrec.
  - intros h task. rewrite lookup_insert, Hn0. case_decide as Hh.
    + intros _. subst h. lia.
    + intros Ht. destruct (Hlive h task Ht) as [Hlive1 _].
      specialize (Hiss h task Hlive1). lia.
Qed.

Lemma subscribe_ok key cb w : World_ok w → World_ok (subscribe key cb w).
Proof.
  intros [Hsubs Hrec Hiss]. split; [|done..].
  intros k subs. unfold subscribe. simpl. rewrite lookup_insert.
  case_decide as Hk; [|apply Hsubs].
  subst k. intros [= <-].
  destruct (subscribers w !! key) as [old|] eqn:Hold; simpl.
  - destruct (Hsubs key old Hold) as [Hnd Hne].
    case_decide as Hin; [done|]. split.
    + apply NoDup_app. repeat split; [done| |apply NoDup_singleton].
      intros x Hx ->%list_elem_of_singleton. done.
    + by destruct old.
  - split; [apply NoDup_singleton|done].
Qed.

Lemma unsubscribe_ok key cb w : World_ok w → World_ok (unsubscribe key cb w).
Proof.
  intros [Hsubs Hrec Hiss]. unfold unsubscribe.
  destruct (subscribers w !! key) as [subs|] eqn:Hold; [|done].
  destruct (Hsubs key subs Hold) as [Hnd Hne].
  destruct (length (filter (λ c, c ≠ cb) subs) =? 0)%nat eqn:Hlen.
  - assert (Hsubs' : ∀ k l, delete key (<[key := filter (λ c, c ≠ cb) subs]> (subscribers w)) !! k
                            = Some l → NoDup l ∧ l ≠ []).
    { intros k l. rewrite lookup_delete. case_decide; [done|].
      rewrite lookup_insert_ne by done. apply Hsubs. }
    cbv zeta. cbn [refreshIntervals with_subscribers].
    destruct (refreshIntervals w !! key) as [interval|] eqn:Hri.
    + split; simpl; [done| |].
      * intros h task. rewrite lookup_delete. case_decide as Hh; [done|].
        intros Ht. specialize (Hrec h task Ht).
        rewrite lookup_delete. case_decide as Hk; [|done].
        rewrite <- Hk, Hri in Hrec. congruence.
      * intros h task. rewrite lookup_delete. case_decide; [done|]. apply Hiss.
    + split; simpl; done.
  - split; simpl; [|done..].
    intros k l. rewrite lookup_insert. case_decide; [|apply Hsubs].
    intros [= <-]. split; [by apply NoDup_filter|].
    intros Hnil. rewrite Hnil in Hlen. done.
Qed.

(** [destroy] clears every interval the class recorded; by the invariant
    those are all the live ones. *)
Lemma destroy_timers w h task :
  map_fold (λ (_ : string) interval t, delete interval t) (timers w) (refreshIntervals w) !! h
  = Some task →
  timers w !! h = Some task ∧ ∀ k, refreshIntervals w !! k ≠ Some h.
Proof.
  revert h task.
  apply (map_fold_weak_ind
           (λ (t : gmap Handle IntervalTask) (m : gmap string Handle),
              ∀ h task, t !! h = Some task →
                timers w !! h = Some task ∧ ∀ k, m !! k ≠ Some h)).
  - intros h task Ht. split; [done|]. intros k. by rewrite lookup_empty.
  - intros i x m t Hi IH h task. rewrite lookup_delete. case_decide as Hx; [done|].
    intros Ht. destruct (IH h task Ht) as [IH1 IH2]. split; [done|].
    intros k. rewrite lookup_insert. case_decide; [congruence|apply IH2].
Qed.

Lemma destroy_ok w : World_ok w → World_ok (destroy w).
Proof.
  intros [Hsubs Hrec Hiss]. split; simpl.
  - intros *. by rewrite lookup_empty.
  - intros h task [Ht Hno]%destroy_timers. exfalso.
    by apply (Hno (task_key task)), Hrec.
  - intros h task [Ht _]%destroy_timers. by apply (Hiss h task).
Qed.

(** ** Notification *)

Section Notification.

Context (throws : Callback → JsVal → bool).

Lemma timesCalled_app cb l1 l2 :
  timesCalled cb (l1 ++ l2) = (timesCalled cb l1 + timesCalled cb l2)%nat.
Proof. unfold timesCalled. by rewrite filter_app, length_app. Qed.

Lemma timesCalled_notifyOne d cb c :
  timesCalled cb (notifyOne throws d c) = if decide (c = cb) then 1%nat else 0%nat.
Proof.
  unfold notifyOne, timesCalled. rewrite filter_cons. simpl.
  assert (Htail : filter (λ fx, calledBy cb fx = true)
                    (if throws c d then [ConsoleError "Subscriber callback error:"] else []) = []).
  { by destruct (throws c d). }
  rewrite Htail.
  destruct (decide (c = cb)) as [->|Hne].
  - rewrite decide_True; [done|apply Nat.eqb_refl].
  - rewrite decide_False; [done|]. by intros ?%Nat.eqb_eq.
Qed.

(** The callbacks of a set are each invoked once, those outside it never. *)
Lemma timesCalled_notify d cb subs :
  NoDup subs →
  timesCalled cb (concat (map (notifyOne throws d) subs))
  = if decide (cb ∈ subs) then 1%nat else 0%nat.
Proof.
  induction 1 as [|c subs Hnotin Hnd IH]; cbn [map concat].
  - rewrite decide_False; [done|apply not_elem_of_nil].
  - rewrite timesCalled_app, timesCalled_notifyOne, IH.
    destruct (decide (c = cb)) as [->|Hne].
    + rewrite (decide_False (P := cb ∈ subs)) by done.
      by rewrite (decide_True (P := cb ∈ cb :: subs)) by apply list_elem_of_here.
    + destruct (decide (cb ∈ subs)) as [Hin|Hout].
      * by rewrite (decide_True (P := cb ∈ c :: subs)) by by apply list_elem_of_further.
      * rewrite (decide_False (P := cb ∈ c :: subs)); [done|].
        intros [?|?]%elem_of_cons; [congruence|done].
Qed.

Lemma notify_Called d subs c v :
  Called c v ∈ concat (map (notifyOne throws d) subs) → c ∈ subs ∧ v = d.
Proof.
  induction subs as [|s subs IH]; simpl.
  - by intros ?%elem_of_nil.
  - unfold notifyOne at 1. rewrite elem_of_cons, elem_of_app.
    intros [Heq | [Hlog | Hrest]].
    + injection Heq as -> ->. split; [apply list_elem_of_here|done].
    + destruct (throws s d).
      * by apply list_elem_of_singleton in Hlog.
      * by apply elem_of_nil in Hlog.
    + destruct (IH Hrest). split; [by apply list_elem_of_further|done].
Qed.

Lemma notify_logged d subs c :
  c ∈ subs → throws c d = true →
  ConsoleError "Subscriber callback error:" ∈ concat (map (notifyOne throws d) subs).
Proof.
  induction subs as [|s subs IH]; cbn [map concat].
  - by intros ?%elem_of_nil.
  - intros [->|Hin]%elem_of_cons Hthrows; apply elem_of_app.
    + left. unfold notifyOne. rewrite Hthrows.
      apply list_elem_of_further, list_elem_of_here.
    + right. by apply IH.
Qed.

End Notification.

(** ** Traces

    What every interleaving preserves, by induction on the trace. *)

Section EventLoop.

Context (throws : Callback → JsVal → bool).

Lemma fetchData_then_cache now key f o d w :
  cache (fetchData_then throws now key f o d w).2
  = <[key := mkCacheEntry d now (now + cacheDurationOf o)]> (cache w).
Proof.
  unfold fetchData_then. simpl.
  destruct (autoRefreshOf o); [by rewrite setupAutoRefresh_cache|done].
Qed.

(** The log of the continuation of a fulfilled fetch is the notification
    of the subscribers registered at that moment. *)
Lemma fetchData_then_effects now key f o d w :
  (fetchData_then throws now key f o d w).1
  = match subscribers w !! key with
    | Some subs => concat (map (notifyOne throws d) subs)
    | None => []
    end.
Proof. done. Qed.

Lemma fetchData_then_subscribers now key f o d w :
  subscribers (fetchData_then throws now key f o d w).2 = subscribers w.
Proof.
  unfold fetchData_then. cbn [snd].
  destruct (autoRefreshOf o); [|done].
  change (subscribers (setupAutoRefresh key f o (setCache now key d (cacheDurationOf o) w))
          = subscribers w).
  by rewrite setupAutoRefresh_subscribers.
Qed.

Lemma fetchData_then_ok now key f o d w :
  World_ok w → World_ok (fetchData_then throws now key f o d w).2.
Proof.
  intros Hok. unfold fetchData_then. cbn [snd].
  apply (World_ok_sameRegistry
           (if autoRefreshOf o then setupAutoRefresh key f o (setCache now key d (cacheDurationOf o) w)
            else setCache now key d (cacheDurationOf o) w)); [done|].
  destruct (autoRefreshOf o).
  - apply setupAutoRefresh_ok. by apply (World_ok_sameRegistry w).
  - by apply (World_ok_sameRegistry w).
Qed.

(** Either continuation clears the in-flight flag. *)
Lemma fetchData_continue_idle now key f o ls r w :
  isLoading (getLoaderState key (fetchData_continue throws now key f o ls r w).2) = false.
Proof.
  destruct r as [d|err]; cbn [fetchData_continue].
  - unfold fetchData_then. cbn [snd]. unfold getLoaderState, setLoaderState. simpl.
    by rewrite lookup_insert_eq.
  - unfold fetchData_catch.
    assert (Hl : ∀ w0, isLoading (getLoaderState key
                  (setLoaderState key
                     (mkLoaderState false now (errorCount ls + 1)
                        (Some (Qred (inject_Z now + backoffMs (errorCount ls + 1))))) w0)) = false).
    { intros w0. unfold getLoaderState, setLoaderState. simpl. by rewrite lookup_insert_eq. }
    cbn [cache setLoaderState with_loaders].
    destruct (cache w !! key); cbn [snd]; apply Hl.
Qed.

Lemma fetchData_continue_other now k f o ls r w key :
  k ≠ key →
  getLoaderState key (fetchData_continue throws now k f o ls r w).2 = getLoaderState key w.
Proof.
  intros Hne. destruct r as [d|err]; cbn [fetchData_continue].
  - unfold fetchData_then. cbn [snd]. unfold getLoaderState, setLoaderState. simpl.
    rewrite lookup_insert_ne by done.
    destruct (autoRefreshOf o); [|done].
    change (default (mkLoaderState false 0 0%nat None)
              (loaders (setupAutoRefresh k f o (setCache now k d (cacheDurationOf o) w)) !! key)
            = default (mkLoaderState false 0 0%nat None) (loaders w !! key)).
    by rewrite setupAutoRefresh_loaders.
  - unfold fetchData_catch. cbn [cache setLoaderState with_loaders].
    destruct (cache w !! k); cbn [snd]; unfold getLoaderState; simpl;
      by rewrite lookup_insert_ne.
Qed.

(** Apart from the continuation of a fulfilled fetch for [key], no event
    gives [key] an entry it did not have. *)
Lemma step_cache_shrinks now ev w key e :
  storesEntry key ev = false →
  cache (step throws now ev w) !! key = Some e → cache w !! key = Some e.
Proof.
  destruct ev as [k o|k f o ls r|k|k cb|k cb|h|]; cbn [step storesEntry]; intros Hst.
  - rewrite fetchData_begin_cache. apply getFromCache_shrinks.
  - destruct r as [d|err]; cbn [fetchData_continue].
    + pose proof (fetchData_then_cache now k f o d w) as Hc.
      destruct (fetchData_then throws now k f o d w) as [fx w1]. simpl in *.
      rewrite Hc. apply String.eqb_neq in Hst. by rewrite lookup_insert_ne.
    + by rewrite fetchData_catch_cache.
  - apply checkLoader_shrinks.
  - done.
  - by rewrite unsubscribe_cache.
  - apply intervalFires_shrinks.
  - unfold destroy. cbn [cache]. by rewrite lookup_empty.
Qed.

Lemma run_cache_shrinks evs w key e :
  forallb (λ te, negb (storesEntry key te.2)) evs = true →
  cache (run throws evs w) !! key = Some e → cache w !! key = Some e.
Proof.
  revert w. induction evs as [|[now ev] evs IH]; intros w; simpl; [done|].
  intros [Hev Hevs]%andb_true_iff Hc. apply negb_true_iff in Hev.
  apply (step_cache_shrinks now ev w key e Hev).
  by apply IH.
Qed.

(** While a call entered at [t0] is in flight, the key never holds an entry
    that had expired before [t0]. *)
Lemma run_no_expired t0 key evs w :
  forallb (storesAfter t0) evs = true →
  (∀ e, cache w !! key = Some e → t0 ≤ expiresAt e) →
  ∀ e, cache (run throws evs w) !! key = Some e → t0 ≤ expiresAt e.
Proof.
  revert w. induction evs as [|[now ev] evs IH]; intros w; simpl; [done|].
  intros [Hev Hevs]%andb_true_iff Hinv. apply IH; [done|].
  intros e He.
  destruct (storesEntry key ev) eqn:Hst.
  - destruct ev as [| k f o ls [d|err] | | | | |]; try done.
    simpl in Hst. apply String.eqb_eq in Hst as ->.
    unfold storesAfter in Hev. simpl in Hev.
    apply andb_true_iff in Hev as [Ht Hd%Z.leb_le]. apply Z.leb_le in Ht.
    cbn [step fetchData_continue] in He.
    pose proof (fetchData_then_cache now key f o d w) as Hc.
    destruct (fetchData_then throws now key f o d w) as [fx w1]. simpl in *.
    rewrite Hc, lookup_insert_eq in He. injection He as <-. simpl. lia.
  - apply Hinv. by apply (step_cache_shrinks now ev w key e Hst).
Qed.

Lemma step_keeps_entry now ev w key e :
  disturbs key (expiresAt e) (now, ev) = false →
  cache w !! key = Some e → cache (step throws now ev w) !! key = Some e.
Proof.
  unfold disturbs. cbn [fst snd].
  destruct ev as [k o|k f o ls r|k|k cb|k cb|h|]; cbn [step]; intros Hev He.
  - rewrite fetchData_begin_cache. apply getFromCache_keeps; [done|].
    gtb_cases now (expiresAt e).
  - destruct r as [d|err]; cbn [fetchData_continue].
    + pose proof (fetchData_then_cache now k f o d w) as Hc.
      destruct (fetchData_then throws now k f o d w) as [fx w1]. simpl in *.
      rewrite Hc. apply String.eqb_neq in Hev. by rewrite lookup_insert_ne.
    + by rewrite fetchData_catch_cache.
  - assert (Hlive : now ≤ expiresAt e)
      by (gtb_cases now (expiresAt e)).
    unfold checkLoader. destruct (negb (isLoading (getLoaderState k w))); [|done].
    pose proof (getFromCache_keeps now k w key e He Hlive) as Hk.
    destruct (getFromCache now k w) as [cached w1]. by destruct (truthy cached).
  - done.
  - by rewrite unsubscribe_cache.
  - assert (Hlive : now ≤ expiresAt e)
      by (gtb_cases now (expiresAt e)).
    unfold intervalFires. destruct (timers w !! h) as [task|]; [|done].
    destruct (subscribers w !! task_key task) as [[|c subs]|]; [done| |done].
    pose proof (fetchData_begin_cache now (task_key task)
                  (withoutAutoRefresh (task_options task)) w) as Hc.
    destruct (fetchData_begin now (task_key task) _ w) as [en w1]. simpl in *.
    rewrite Hc. by apply getFromCache_keeps.
  - done.
Qed.

(** An entry survives a trace made of lookups before its [expiresAt] and of
    segments that concern other keys. *)
Lemma run_keeps_entry evs w key e :
  forallb (λ te, negb (disturbs key (expiresAt e) te)) evs = true →
  cache w !! key = Some e → cache (run throws evs w) !! key = Some e.
Proof.
  revert w. induction evs as [|[now ev] evs IH]; intros w; simpl; [done|].
  intros [Hev Hevs]%andb_true_iff He. apply negb_true_iff in Hev.
  apply IH; [done|]. by apply step_keeps_entry.
Qed.

(** Until its continuation runs (or [destroy] is called), a call that is
    fetching keeps the in-flight flag of its key set. *)
Lemma step_keeps_loading now ev w key :
  releases key ev = false →
  isLoading (getLoaderState key w) = true →
  isLoading (getLoaderState key (step throws now ev w)) = true.
Proof.
  destruct ev as [k o|k f o ls r|k|k cb|k cb|h|]; cbn [step releases]; intros Hev Hbusy.
  - by apply fetchData_begin_keeps_loading.
  - apply String.eqb_neq in Hev. by rewrite fetchData_continue_other.
  - unfold checkLoader. destruct (negb (isLoading (getLoaderState k w))); [|done].
    pose proof (getLoaderState_getFromCache now k key w) as Hk.
    destruct (getFromCache now k w) as [cached w1]. simpl in Hk.
    destruct (truthy cached); simpl; by rewrite Hk.
  - done.
  - unfold getLoaderState. by rewrite unsubscribe_loaders.
  - unfold intervalFires. destruct (timers w !! h) as [task|]; [|done].
    destruct (subscribers w !! task_key task) as [[|c subs]|]; [done| |done].
    pose proof (fetchData_begin_keeps_loading now (task_key task)
                  (withoutAutoRefresh (task_options task)) w key Hbusy) as Hk.
    by destruct (fetchData_begin now (task_key task) _ w).
  - done.
Qed.

Lemma run_keeps_loading evs w key :
  forallb (λ te, negb (releases key te.2)) evs = true →
  isLoading (getLoaderState key w) = true →
  isLoading (getLoaderState key (run throws evs w)) = true.
Proof.
  revert w. induction evs as [|[now ev] evs IH]; intros w; simpl; [done|].
  intros [Hev Hevs]%andb_true_iff Hbusy. apply negb_true_iff in Hev.
  apply IH; [done|]. by apply step_keeps_loading.
Qed.

(** Only [subscribe] gives a key a subscriber set. *)
Lemma step_no_subscribers now ev w key :
  subscribesTo key ev = false →
  subscribers w !! key = None → subscribers (step throws now ev w) !! key = None.
Proof.
  intros Hev Hnone.
  destruct ev as [k o|k f o ls r|k|k cb|k cb|h|]; cbn [step].
  - destruct (fetchData_begin_sameRegistry now k o w) as (-> & _). done.
  - destruct r as [d|err]; cbn [fetchData_continue].
    + pose proof (fetchData_then_subscribers now k f o d w) as Hs.
      destruct (fetchData_then throws now k f o d w) as [fx w1]. simpl in *.
      by rewrite Hs.
    + destruct (fetchData_catch_sameRegistry now k ls err w) as (-> & _). done.
  - destruct (checkLoader_sameRegistry now k w) as (-> & _). done.
  - simpl in Hev. apply String.eqb_neq in Hev.
    unfold subscribe. simpl. by rewrite lookup_insert_ne.
  - unfold unsubscribe. destruct (subscribers w !! k) as [subs|] eqn:Hk; [|done].
    assert (k ≠ key) as Hne by congruence.
    destruct (length (filter (λ c, c ≠ cb) subs) =? 0)%nat.
    + cbv zeta. cbn [refreshIntervals with_subscribers].
      destruct (refreshIntervals w !! k); simpl;
        by rewrite lookup_delete_ne, lookup_insert_ne.
    + simpl. by rewrite lookup_insert_ne.
  - destruct (intervalFires_sameRegistry now h w) as (-> & _). done.
  - apply lookup_empty.
Qed.

Lemma run_no_subscribers evs w key :
  forallb (λ te, negb (subscribesTo key te.2)) evs = true →
  subscribers w !! key = None → subscribers (run throws evs w) !! key = None.
Proof.
  revert w. induction evs as [|[now ev] evs IH]; intros w; simpl; [done|].
  intros [Hev Hevs]%andb_true_iff Hnone. apply negb_true_iff in Hev.
  apply IH; [done|]. by apply step_no_subscribers.
Qed.

Lemma step_ok now ev w : World_ok w → World_ok (step throws now ev w).
Proof.
  intros Hok. destruct ev as [k o|k f o ls r|k|k cb|k cb|h|]; cbn [step].
  - apply (World_ok_sameRegistry w); [apply fetchData_begin_sameRegistry|done].
  - destruct r as [d|err]; cbn [fetchData_continue].
    + pose proof (fetchData_then_ok now k f o d w Hok) as H.
      by destruct (fetchData_then throws now k f o d w).
    + apply (World_ok_sameRegistry w); [apply fetchData_catch_sameRegistry|done].
  - apply (World_ok_sameRegistry w); [apply checkLoader_sameRegistry|done].
  - by apply subscribe_ok.
  - by apply unsubscribe_ok.
  - apply (World_ok_sameRegistry w); [apply intervalFires_sameRegistry|done].
  - by apply destroy_ok.
Qed.

Lemma run_ok evs w : World_ok w → World_ok (run throws evs w).
Proof.
  revert w. induction evs as [|[now ev] evs IH]; intros w Hok; simpl; [done|].
  by apply IH, step_ok.
Qed.

Lemma reachable_ok w : reachable throws w → World_ok w.
Proof. intros [evs ->]. apply run_ok, World_ok_empty. Qed.

End EventLoop.

(** ** Polls, and calls that find the key in flight *)

(** How a poll goes: it polls again while the key is in flight; otherwise it
    resolves with an unexpired truthy entry and rejects without one. *)
Lemma checkLoader_spec now key w :
  (checkLoader now key w).1
  = if isLoading (getLoaderState key w) then PollAgain
    else match cache w !! key with
         | Some e =>
             if (now <=? expiresAt e) && truthy (data e)
             then PollSettled (Fulfilled (data e))
             else PollSettled (Rejected (NewError "Loader completed but no data available"))
         | None => PollSettled (Rejected (NewError "Loader completed but no data available"))
         end.
Proof.
  unfold checkLoader. destruct (isLoading (getLoaderState key w)); [done|]. cbn [negb].
  unfold getFromCache. destruct (cache w !! key) as [e|]; [|done].
  destruct (Z.gtb_spec now (expiresAt e)) as [Hgt|Hle].
  - replace (now <=? expiresAt e) with false by (symmetry; apply Z.leb_gt; lia). done.
  - replace (now <=? expiresAt e) with true by (symmetry; apply Z.leb_le; lia).
    cbn [andb]. by destruct (truthy (data e)).
Qed.

Lemma checkLoader_busy now key w :
  isLoading (getLoaderState key w) = true → checkLoader now key w = (PollAgain, w).
Proof. intros Hbusy. unfold checkLoader. by rewrite Hbusy. Qed.

Lemma shouldRefresh_entry now key crit w e :
  cache w !! key = Some e →
  shouldRefresh now key crit w
  = negb (10 * (now - timestamp e)
          <=? 8 * (if crit then criticalDataCacheDuration else defaultCacheDuration)).
Proof.
  intros He. unfold shouldRefresh. rewrite He. cbv zeta.
  set (a := 10 * (now - timestamp e)).
  set (b := 8 * (if crit then criticalDataCacheDuration else defaultCacheDuration)).
  destruct (Z.gtb_spec a b); destruct (Z.leb_spec a b); try done; lia.
Qed.

(** The synchronous prefix of a call that finds the key in flight. *)
Lemma fetchData_begin_busy now key o w :
  isLoading (getLoaderState key w) = true →
  fetchData_begin now key o w
  = match cache w !! key with
    | Some e =>
        if (now <=? expiresAt e) && truthy (data e)
           && (10 * (now - timestamp e) <=? 8 * maxAgeOf o)
        then (CacheHit (data e), w)
        else (AwaitLoader, (getFromCache now key w).2)
    | None => (AwaitLoader, w)
    end.
Proof.
  intros Hbusy. unfold fetchData_begin.
  destruct (cache w !! key) as [e|] eqn:He.
  - destruct (Z.leb_spec now (expiresAt e)) as [Hlive|Hdead].
    + rewrite (getFromCache_live now key w e He Hlive).
      rewrite (shouldRefresh_entry now key _ w e He), negb_involutive, Hbusy.
      unfold maxAgeOf. cbn [andb snd]. done.
    + rewrite (getFromCache_expired now key w e He) by lia.
      cbn [truthy andb snd].
      change (getLoaderState key (with_cache (delete key (cache w)) w))
        with (getLoaderState key w).
      by rewrite Hbusy.
  - unfold getFromCache. rewrite He. cbn [truthy andb]. by rewrite Hbusy.
Qed.

Lemma fetchData_begin_AwaitLoader now key o w w1 :
  fetchData_begin now key o w = (AwaitLoader, w1) →
  isLoading (getLoaderState key w1) = true.
Proof.
  unfold fetchData_begin.
  pose proof (getLoaderState_getFromCache now key key w) as Hl.
  destruct (getFromCache now key w) as [cached w0]. cbn [snd] in Hl.
  destruct (truthy cached && negb (shouldRefresh now key (criticalOf o) w0)); [done|].
  destruct (isLoading (getLoaderState key w0)) eqn:Hbusy; [|done].
  by intros [= <-].
Qed.

(** A call that resolves leaves the value it resolves with in the cache:
    the entry it stored, or the entry it fell back to. *)
Lemma fetchData_continue_resolved throws now key f o ls r w v :
  (fetchData_continue throws now key f o ls r w).1.1 = Fulfilled v →
  ∃ e, cache (fetchData_continue throws now key f o ls r w).2 !! key = Some e ∧
       data e = v ∧
       (∀ d, r = Fulfilled d → e = mkCacheEntry d now (now + cacheDurationOf o)) ∧
       (∀ err, r = Rejected err → cache w !! key = Some e).
Proof.
  destruct r as [d|err]; cbn [fetchData_continue].
  - pose proof (fetchData_then_cache throws now key f o d w) as Hc.
    destruct (fetchData_then throws now key f o d w) as [fx w1]. cbn [fst snd] in *.
    intros [= <-]. exists (mkCacheEntry d now (now + cacheDurationOf o)).
    rewrite Hc, lookup_insert_eq. repeat split; try done.
    by intros d' [= <-].
  - unfold fetchData_catch. cbn [cache setLoaderState with_loaders].
    destruct (cache w !! key) as [e|] eqn:He; cbn [fst snd]; [|done].
    intros [= <-]. exists e. cbn [cache with_loaders]. repeat split; done.
Qed.

(** * The claims *)

(** ** C1: a caller that finds the key in flight *)

(** C1 (as amended). While a call for a key is fetching (its continuation
    has not run and [destroy] was not called), a further [fetchData] call
    for the key makes no fetcher invocation.  It returns the cached value at
    once exactly when the key holds an entry that is unexpired, truthy and
    not yet due for refresh; otherwise it waits, and every poll made while
    the fetch is still in flight polls again.  When the first call has
    completed and resolved with a value [v] (the fetched one, or the cached
    fallback after a failure), [v] is in the cache, and whatever runs before
    the next poll without disturbing that entry, the poll goes on polling if
    a fetch for the key is in flight again, resolves with the same [v] if
    [v] is truthy and the entry has not expired, and rejects with
    [Error('Loader completed but no data available')] otherwise. *)
Theorem fetchData_deduplicates
    throws tA evs tB evsB key fA oA lsA wA fB (fetcherB : Fetcher) oB w :
  fetchData_begin tA key oA w = (Fetching lsA, wA) →
  forallb (λ te, negb (releases key te.2)) evs = true →
  let wB := run throws evs wA in
  let second := fetchData throws tB evsB tB key fB fetcherB oB wB in
  invocations second.1 = 0%nat ∧
  match cache wB !! key with
  | Some e =>
      if (tB <=? expiresAt e) && truthy (data e)
         && (10 * (tB - timestamp e) <=? 8 * maxAgeOf oB)
      then second = (mkReport (Some (Fulfilled (data e))) 0 [] [], wB)
      else outcome second.1 = None
  | None => outcome second.1 = None
  end ∧
  (∀ evs2 tP, forallb (λ te, negb (releases key te.2)) evs2 = true →
     checkLoader tP key (run throws evs2 second.2) = (PollAgain, run throws evs2 second.2)) ∧
  (∀ evs2 t1 r v,
     let first := fetchData_continue throws t1 key fA oA lsA r (run throws evs2 second.2) in
     first.1.1 = Fulfilled v →
     ∃ e, cache first.2 !! key = Some e ∧ data e = v ∧
          (∀ d, r = Fulfilled d → e = mkCacheEntry d t1 (t1 + cacheDurationOf oA)) ∧
          isLoading (getLoaderState key first.2) = false ∧
          (∀ evs3 tP,
             forallb (λ te, negb (disturbs key (expiresAt e) te)) evs3 = true →
             let wP := run throws evs3 first.2 in
             (checkLoader tP key wP).1
             = if isLoading (getLoaderState key wP) then PollAgain
               else if (tP <=? expiresAt e) && truthy v then PollSettled (Fulfilled v)
               else PollSettled (Rejected (NewError "Loader completed but no data available")))).
Proof.
  intros Hbegin Hevs wB second.
  assert (Hbusy : isLoading (getLoaderState key wB) = true).
  { apply run_keeps_loading; [done|].
    destruct (fetchData_begin_Fetching _ _ _ _ _ _ Hbegin) as (_ & _ & -> & _).
    unfold getLoaderState, setLoaderState. simpl. by rewrite lookup_insert_eq. }
  pose proof (fetchData_begin_busy tB key oB wB Hbusy) as Hb.
  assert (Hwait : fetchData_begin tB key oB wB = (AwaitLoader, (getFromCache tB key wB).2) →
                  second = (mkReport None 0 [] [], (getFromCache tB key wB).2)).
  { intros Heq. subst second. unfold fetchData. by rewrite Heq. }
  assert (Hbusy2 : isLoading (getLoaderState key second.2) = true ∧
                   invocations second.1 = 0%nat).
  { destruct (cache wB !! key) as [e|] eqn:He.
    - destruct ((tB <=? expiresAt e) && truthy (data e)
                && (10 * (tB - timestamp e) <=? 8 * maxAgeOf oB)).
      + subst second. unfold fetchData. rewrite Hb. done.
      + rewrite (Hwait Hb). cbn [fst snd invocations].
        by rewrite getLoaderState_getFromCache.
    - assert (Hg : (getFromCache tB key wB).2 = wB) by (unfold getFromCache; by rewrite He).
      rewrite Hg in Hwait. by rewrite (Hwait Hb). }
  destruct Hbusy2 as [Hbusy2 Hzero].
  split; [done|]. split.
  { destruct (cache wB !! key) as [e|] eqn:He.
    - destruct ((tB <=? expiresAt e) && truthy (data e)
                && (10 * (tB - timestamp e) <=? 8 * maxAgeOf oB)).
      + subst second. unfold fetchData. by rewrite Hb.
      + by rewrite (Hwait Hb).
    - assert (Hg : (getFromCache tB key wB).2 = wB) by (unfold getFromCache; by rewrite He).
      rewrite Hg in Hwait. by rewrite (Hwait Hb). }
  split.
  { intros evs2 tP Hevs2. by apply checkLoader_busy, run_keeps_loading. }
  intros evs2 t1 r v first Hv.
  destruct (fetchData_continue_resolved throws t1 key fA oA lsA r _ v Hv)
    as (e & He & Hdata & Hnew & _).
  exists e. split; [done|]. split; [done|]. split; [done|]. split.
  { apply fetchData_continue_idle. }
  intros evs3 tP Hevs3 wP. rewrite checkLoader_spec.
  destruct (isLoading (getLoaderState key wP)); [done|].
  unfold wP. rewrite (run_keeps_entry throws evs3 first.2 key e Hevs3 He).
  by rewrite Hdata.
Qed.

Lemma fetchData_deduplicates_witness :
  let a := fetchData_begin 0 "k" noOptions emptyWorld in
  let evs := [(5, EvSubscribe "k" 1%nat); (8, EvFetchData "other" noOptions)] in
  let second := fetchData (λ _ _, false) 10 [] 10 "k" 0%nat (λ _, Fulfilled (JStr "other"))
                  noOptions (run (λ _ _, false) evs a.2) in
  let first := fetchData_continue (λ _ _, false) 120 "k" 0%nat noOptions
                 (mkLoaderState false 0 0 None) (Fulfilled (JStr "fresh")) second.2 in
  let between := [(130, EvFetchData "other" noOptions); (140, EvUnsubscribe "k" 1%nat)] in
  invocations second.1 = 0%nat ∧
  outcome second.1 = None ∧
  (checkLoader 110 "k" second.2).1 = PollAgain ∧
  first.1.1 = Fulfilled (JStr "fresh") ∧
  (checkLoader 210 "k" (run (λ _ _, false) between first.2)).1
  = PollSettled (Fulfilled (JStr "fresh")).
Proof.
  intros a evs second first between.
  destruct (fetchData_deduplicates (λ _ _, false) 0 evs 10 [] "k" 0%nat noOptions
              (mkLoaderState false 0 0 None) a.2 0%nat
              (λ _, Fulfilled (JStr "other")) noOptions emptyWorld
              eq_refl eq_refl)
    as (Hzero & Hout & Hpoll & Hdone).
  split; [exact Hzero|]. split; [exact Hout|]. split.
  { exact (f_equal fst (Hpoll [] 110 eq_refl)). }
  split; [reflexivity|].
  destruct (Hdone [] 120 (Fulfilled (JStr "fresh")) (JStr "fresh") eq_refl)
    as (e & _ & _ & Hnew & _ & Hlater).
  specialize (Hlater between 210).
  rewrite (Hnew (JStr "fresh") eq_refl) in Hlater.
  exact (Hlater eq_refl).
Defined.

(** C1, as the specification states it, fails: the two callers need not
    receive the same value.  First scenario: the fetch is fulfilled and
    stored for 50 ms; the waiting caller polls 90 ms later, finds the entry
    expired and rejects.  Second scenario, all options default: the fetch
    fails, the first caller resolves with the stale entry, which has expired
    by the time the waiting caller polls, so that caller rejects. *)
Lemma fetchData_dedup_same_value_counterexample :
  (let o := mkOptions (Some 50) None (Some false) None in
   let a := fetchData_begin 0 "k" o emptyWorld in
   let b := fetchData (λ _ _, false) 10 [] 10 "k" 0%nat (λ _, Fulfilled (JStr "other")) o a.2 in
   let first := fetchData_continue (λ _ _, false) 20 "k" 0%nat o
                  (mkLoaderState false 0 0 None) (Fulfilled (JStr "fresh")) b.2 in
   a.1 = Fetching (mkLoaderState false 0 0 None) ∧
   outcome b.1 = None ∧ invocations b.1 = 0%nat ∧
   first.1.1 = Fulfilled (JStr "fresh") ∧
   (checkLoader 110 "k" first.2).1
   = PollSettled (Rejected (NewError "Loader completed but no data available")))
  ∧
  (let w := setCache 0 "k" (JStr "old") 30000 emptyWorld in
   let a := fetchData_begin 25200 "k" noOptions w in
   let b := fetchData (λ _ _, false) 25210 [] 25210 "k" 0%nat (λ _, Fulfilled (JStr "other"))
              noOptions a.2 in
   let first := fetchData_continue (λ _ _, false) 29960 "k" 0%nat noOptions
                  (mkLoaderState false 0 0 None) (Rejected (FetcherError "down")) b.2 in
   a.1 = Fetching (mkLoaderState false 0 0 None) ∧
   outcome b.1 = None ∧ invocations b.1 = 0%nat ∧
   first.1.1 = Fulfilled (JStr "old") ∧
   (checkLoader 30010 "k" first.2).1
   = PollSettled (Rejected (NewError "Loader completed but no data available"))).
Proof. vm_compute. done. Qed.

(** ** C2: a fresh entry suppresses the fetch *)




(** ** C3: stale-on-error fallback *)

(** C3 (as amended). When the key holds an entry that has not passed its
    [expiresAt] at the start of the call, no fetch is in flight for the key,
    and nothing evicts the entry while the call awaits (no [destroy], no
    lookup after the entry's [expiresAt]), a call whose fetcher fails on
    every attempt resolves with that entry's value. *)
Theorem fetchData_stale_fallback throws t0 evs t1 key f (fetcher : Fetcher) o w e :
  cache w !! key = Some e →
  t0 ≤ expiresAt e →
  isLoading (getLoaderState key w) = false →
  forallb (λ te, negb (disturbs key (expiresAt e) te)) evs = true →
  (∀ i, ∃ err, fetcher i = Rejected err) →
  outcome (fetchData throws t0 evs t1 key f fetcher o w).1 = Some (Fulfilled (data e)).
Proof.
  intros He Hlive Hidle Hevs Hfail.
  unfold fetchData, fetchData_begin.
  rewrite (getFromCache_live _ _ _ _ He Hlive).
  destruct (truthy (data e) && negb (shouldRefresh t0 key (criticalOf o) w)); [done|].
  rewrite Hidle.
  set (w1 := setLoaderState key _ w).
  destruct (executeWithRetry_all_rejected fetcher key (retryOnErrorOf o) w1 Hfail)
    as (err & -> & _).
  cbn [fetchData_continue]. unfold fetchData_catch.
  cbn [cache setLoaderState with_loaders].
  by rewrite (run_keeps_entry throws evs w1 key e Hevs He).
Qed.

Lemma fetchData_stale_fallback_witness :
  let w := setCache 0 "k" (JStr "old") 30000 emptyWorld in
  let evs := [(29010, EvFetchData "k" noOptions); (29110, EvCheckLoader "k")] in
  outcome (fetchData (λ _ _, false) 29000 evs 29950 "k" 0%nat
             (λ _, Rejected (FetcherError "down"))
             (mkOptions None None None (Some false)) w).1
  = Some (Fulfilled (JStr "old")).
Proof.
  intros w evs.
  apply (fetchData_stale_fallback (λ _ _, false) 29000 evs 29950 "k" 0%nat _ _ w
           (mkCacheEntry (JStr "old") 0 30000)).
  - reflexivity.
  - simpl. lia.
  - reflexivity.
  - reflexivity.
  - intros i. by exists (FetcherError "down").
Defined.

(** C3, as the specification states it, fails for an entry past its
    [expiresAt]: the lookup that opens the call deletes it, and the call
    rejects with the fetcher's error.  The same happens to an entry that
    expires while the call awaits and is looked up by another caller. *)
Lemma fetchData_expired_fallback_counterexample :
  (let w := (fetchData (λ _ _, false) 0 [] 0 "k" 0%nat (λ _, Fulfilled (JStr "old"))
               noOptions emptyWorld).2 in
   let rep := (fetchData (λ _ _, false) 40000 [] 44750 "k" 0%nat
                 (λ _, Rejected (FetcherError "down")) noOptions w).1 in
   cache w !! "k" = Some (mkCacheEntry (JStr "old") 0 30000) ∧
   isLoading (getLoaderState "k" w) = false ∧
   invocations rep = 4%nat ∧
   outcome rep = Some (Rejected (FetcherError "down")))
  ∧
  (let w := setCache 0 "k" (JStr "old") 30000 emptyWorld in
   let evs := [(31000, EvFetchData "k" noOptions)] in
   let rep := (fetchData (λ _ _, false) 29000 evs 33750 "k" 0%nat
                 (λ _, Rejected (FetcherError "down")) noOptions w).1 in
   invocations rep = 4%nat ∧
   outcome rep = Some (Rejected (FetcherError "down"))).
Proof. vm_compute. done. Qed.

(** ** C4: without a cache entry the failure reaches the caller *)

(** C4. With no entry for the key and no fetch in flight, a call whose
    fetcher fails on every attempt rejects with the error of the last
    invocation; under the retry policy that is the 4th (three retries).
    Nothing that runs while the call awaits changes this, short of another
    call storing an entry for the key. *)
Theorem fetchData_no_cache_rejects throws t0 evs t1 key f (fetcher : Fetcher) o w :
  cache w !! key = None →
  isLoading (getLoaderState key w) = false →
  forallb (λ te, negb (storesEntry key te.2)) evs = true →
  (∀ i, ∃ err, fetcher i = Rejected err) →
  let rep := (fetchData throws t0 evs t1 key f fetcher o w).1 in
  ∃ err, outcome rep = Some (Rejected err) ∧
         fetcher (invocations rep - 1)%nat = Rejected err ∧
         (retryOnErrorOf o = true → (errorCount (getLoaderState key w) < 3)%nat →
          invocations rep = 4%nat).
Proof.
  intros Hnone Hidle Hevs Hfail rep. subst rep.
  unfold fetchData, fetchData_begin, getFromCache. rewrite Hnone.
  cbn [truthy andb]. rewrite Hidle.
  set (w1 := setLoaderState key _ w).
  destruct (executeWithRetry_all_rejected fetcher key (retryOnErrorOf o) w1 Hfail)
    as (err & Hs & Hlast & Hcount).
  rewrite Hs. cbn [fetchData_continue]. unfold fetchData_catch.
  cbn [cache setLoaderState with_loaders].
  destruct (cache (run throws evs w1) !! key) as [e|] eqn:He.
  { apply (run_cache_shrinks throws evs w1 key e Hevs) in He.
    unfold w1 in He. simpl in He. congruence. }
  simpl. exists err. repeat split; [done|].
  intros Hretry Hlt. apply Hcount; [done|].
  unfold getLoaderState, w1, setLoaderState. simpl. rewrite lookup_insert_eq. simpl.
  unfold maxRetries. done.
Qed.

Lemma fetchData_no_cache_rejects_witness :
  let fetcher : Fetcher := λ i, Rejected (FetcherError (if (i <? 3)%nat then "early" else "final")) in
  let evs := [(10, EvFetchData "k" noOptions); (110, EvCheckLoader "k");
              (200, EvSubscribe "k" 1%nat)] in
  let rep := (fetchData (λ _ _, false) 0 evs 4750 "k" 0%nat fetcher noOptions emptyWorld).1 in
  ∃ err, outcome rep = Some (Rejected err) ∧
         fetcher (invocations rep - 1)%nat = Rejected err ∧
         (retryOnErrorOf noOptions = true → (errorCount (getLoaderState "k" emptyWorld) < 3)%nat →
          invocations rep = 4%nat).
Proof.
  intros fetcher evs rep.
  apply (fetchData_no_cache_rejects (λ _ _, false) 0 evs 4750 "k" 0%nat fetcher noOptions emptyWorld).
  - reflexivity.
  - reflexivity.
  - reflexivity.
  - intros i. eexists. reflexivity.
Defined.

(** ** C5: the retry policy of one call *)

(** C5. A [fetchData] call that reaches its fetcher with [retryOnError] on and
    fewer than 3 recorded consecutive failures makes between 1 and 4
    invocations, each one after a rejected one, sleeping
    [1.5^attempt * 1000] ms after attempt 0, 1, 2; it stops before the 4th
    only on a fulfilled attempt; a fetcher failing twice and then succeeding
    is invoked 3 times with delays 1000 and 1500.  With [retryOnError] off,
    or 3 or more recorded failures, the fetcher is invoked exactly once and
    nothing sleeps. *)
Theorem fetchData_retry_policy
    throws t0 evs t1 key f (fetcher : Fetcher) o w ls w1 :
  fetchData_begin t0 key o w = (Fetching ls, w1) →
  let rep := (fetchData throws t0 evs t1 key f fetcher o w).1 in
  (retryOnErrorOf o = true → (errorCount (getLoaderState key w) < 3)%nat →
     (1 ≤ invocations rep ≤ 4)%nat ∧
     timeouts rep = map backoffMs (seq 0 (invocations rep - 1)) ∧
     (∀ a : nat, (backoffMs a == Qpower (3 # 2) (Z.of_nat a) * 1000)%Q) ∧
     (∀ i, (i < invocations rep - 1)%nat → ∃ e, fetcher i = Rejected e) ∧
     ((invocations rep < 4)%nat → ∃ v, fetcher (invocations rep - 1)%nat = Fulfilled v) ∧
     (∀ e0 e1 v, fetcher 0%nat = Rejected e0 → fetcher 1%nat = Rejected e1 →
        fetcher 2%nat = Fulfilled v →
        invocations rep = 3%nat ∧ timeouts rep = [1000%Q; 1500%Q] ∧
        outcome rep = Some (Fulfilled v)))
  ∧ (retryOnErrorOf o = false ∨ (3 ≤ errorCount (getLoaderState key w))%nat →
     invocations rep = 1%nat ∧ timeouts rep = []).
Proof.
  intros Hbegin rep.
  destruct (fetchData_begin_Fetching _ _ _ _ _ _ Hbegin) as (Hls & _ & _ & Hec).
  assert (Hrep : invocations rep = fetcherCalls (executeWithRetry fetcher key (retryOnErrorOf o) w1)
               ∧ timeouts rep = delays (executeWithRetry fetcher key (retryOnErrorOf o) w1)
               ∧ (∀ v, settled (executeWithRetry fetcher key (retryOnErrorOf o) w1) = Fulfilled v →
                    outcome rep = Some (Fulfilled v))).
  { subst rep. unfold fetchData. rewrite Hbegin. cbv zeta.
    destruct (fetchData_continue throws t1 key f o ls
                (settled (executeWithRetry fetcher key (retryOnErrorOf o) w1))
                (run throws evs w1))
      as [[r fx] w2] eqn:Hcont. simpl.
    repeat split. intros v Hv. rewrite Hv in Hcont. simpl in Hcont.
    destruct (fetchData_then throws t1 key f o v (run throws evs w1)).
    by injection Hcont as <- _ _. }
  destruct Hrep as (Hinv & Htime & Hout). rewrite Hinv, Htime. clear Hinv Htime.
  unfold executeWithRetry in *. rewrite Hec, <- Hls in *.
  split.
  - intros Hretry Hlt. rewrite Hretry in Hout |- *.
    replace (maxRetries <=? errorCount ls)%nat with false in *
      by (symmetry; apply Nat.leb_gt; unfold maxRetries; lia).
    cbn [negb orb] in *.
    set (run := retryLoop fetcher (S maxRetries) 0 Undefined) in *.
    pose proof (retryLoop_calls fetcher (S maxRetries) 0 Undefined) as [Hle Hpos].
    fold run in Hle, Hpos. unfold maxRetries in Hle, Hpos.
    split; [lia|].
    split; [apply (retryLoop_delays fetcher (S maxRetries) 0 Undefined); done|].
    split; [intros a; apply backoffMs_formula|].
    split; [intros i Hi; apply (retryLoop_failures fetcher (S maxRetries) 0 Undefined i Hi)|].
    split.
    + intros Hearly.
      destruct (retryLoop_early fetcher (S maxRetries) 0 Undefined Hearly) as [v Hv].
      exists v. rewrite <- Hv.
      rewrite (retryLoop_settled fetcher (S maxRetries) 0 Undefined); [done|].
      unfold maxRetries. lia.
    + intros e0 e1 v H0 H1 H2.
      assert (Hrun : run = mkRetryRun (Fulfilled v) 3 [1000%Q; 1500%Q]).
      { subst run. unfold maxRetries. cbn [retryLoop]. rewrite H0. cbn [retryLoop].
        rewrite H1. cbn [retryLoop]. rewrite H2. reflexivity. }
      rewrite Hrun. simpl. repeat split. apply Hout. by rewrite Hrun.
  - intros [Hretry | Hge].
    + by rewrite Hretry.
    + replace (maxRetries <=? errorCount ls)%nat with true
        by (symmetry; apply Nat.leb_le; unfold maxRetries; lia).
      by rewrite orb_true_r.
Qed.

Lemma fetchData_retry_policy_witness :
  let fetcher : Fetcher := λ i,
    if (i <? 2)%nat then Rejected (FetcherError "503") else Fulfilled (JNum 7) in
  let rep := (fetchData (λ _ _, false) 0 [] 2500 "k" 0%nat fetcher noOptions emptyWorld).1 in
  invocations rep = 3%nat ∧ timeouts rep = [1000%Q; 1500%Q] ∧
  outcome rep = Some (Fulfilled (JNum 7)).
Proof.
  intros fetcher rep.
  assert (Hb : fetchData_begin 0 "k" noOptions emptyWorld
               = (Fetching (mkLoaderState false 0 0 None),
                  setLoaderState "k" (mkLoaderState true 0 0 None) emptyWorld))
    by reflexivity.
  destruct (fetchData_retry_policy (λ _ _, false) 0 [] 2500 "k" 0%nat fetcher
              noOptions emptyWorld _ _ Hb) as [Hretry _].
  destruct (Hretry eq_refl) as (_ & _ & _ & _ & _ & Hex).
  { vm_compute. lia. }
  apply (Hex (FetcherError "503") (FetcherError "503") (JNum 7));
    reflexivity.
Defined.

(** ** C6: the backoff deadline *)

(** C6. The market-insights configuration with one subscriber: the fetch
    at 0 succeeds and arms the 5000 ms interval; the firing at 5000 starts a
    fetch that fails, handled at 9800 with [retryAfter] = 11300; the firing
    at 10000, before that deadline, starts the fetcher again. *)
Theorem auto_refresh_ignores_backoff :
  let key := "market:insights" in
  let o := mkOptions (Some 5000) (Some true) (Some true) None in
  let w0 := subscribe key 1%nat emptyWorld in
  let w1 := (fetchData (λ _ _, false) 0 [] 0 key 7%nat (λ _, Fulfilled (JStr "v1")) o w0).2 in
  let tick1 := intervalFires 5000 1%positive w1 in
  let failed := fetchData_continue (λ _ _, false) 9800 key 7%nat (withoutAutoRefresh o)
                  (mkLoaderState false 0 0 None) (Rejected (FetcherError "down")) tick1.2 in
  let tick2 := intervalFires 10000 1%positive failed.2 in
  tick1.1 = Some (mkIntervalTask key 7%nat o 5000, Fetching (mkLoaderState false 0 0 None)) ∧
  retryAfter (getLoaderState key failed.2) = Some 11300%Q ∧
  (inject_Z 10000 < 11300)%Q ∧
  tick2.1 = Some (mkIntervalTask key 7%nat o 5000,
                  Fetching (mkLoaderState false 9800 1 (Some 11300%Q))).
Proof. vm_compute. done. Qed.

(** ** C7: the last unsubscribe cancels the schedule *)

(** C7. When the only subscriber of a key unsubscribes, the key's interval
    is cleared and forgotten, no live interval is left for the key, the
    cache is unchanged, and until somebody subscribes to the key again no
    firing of any interval enters [fetchData] for it. *)
Theorem unsubscribe_last_cancels_schedule throws key cb w :
  World_ok w →
  subscribers w !! key = Some [cb] →
  let w' := unsubscribe key cb w in
  subscribers w' !! key = None ∧
  refreshIntervals w' !! key = None ∧
  (∀ h, refreshIntervals w !! key = Some h → timers w' !! h = None) ∧
  (∀ h task, timers w' !! h = Some task → task_key task ≠ key) ∧
  cache w' = cache w ∧
  (∀ evs now h task e,
     forallb (λ te, negb (subscribesTo key te.2)) evs = true →
     (intervalFires now h (run throws evs w')).1 = Some (task, e) →
     task_key task ≠ key).
Proof.
  intros Hok Hsubs w'.
  assert (Hnone : subscribers w' !! key = None).
  { subst w'. unfold unsubscribe. rewrite Hsubs.
    rewrite filter_cons, decide_False by (by intros ?). simpl.
    destruct (refreshIntervals w !! key); simpl; apply lookup_delete_eq. }
  assert (Hri : refreshIntervals w' !! key = None).
  { subst w'. unfold unsubscribe. rewrite Hsubs.
    rewrite filter_cons, decide_False by (by intros ?). simpl.
    destruct (refreshIntervals w !! key) eqn:Hk; simpl; [apply lookup_delete_eq|done]. }
  assert (Hok' : World_ok w') by by apply unsubscribe_ok.
  split; [done|]. split; [done|]. split; [|split; [|split]].
  - intros h Hh. subst w'. unfold unsubscribe. rewrite Hsubs.
    rewrite filter_cons, decide_False by (by intros ?). simpl.
    rewrite Hh. simpl. apply lookup_delete_eq.
  - intros h task Ht Hkey.
    pose proof (timers_recorded w' Hok' h task Ht) as Hrec.
    rewrite Hkey, Hri in Hrec. done.
  - apply unsubscribe_cache.
  - intros evs now h task e Hevs Hfire Hkey.
    destruct (intervalFires_needs_subscriber _ _ _ _ _ Hfire) as (c & subs & Hc).
    rewrite Hkey, (run_no_subscribers throws evs w' key Hevs Hnone) in Hc. done.
Qed.

Lemma unsubscribe_last_cancels_schedule_witness :
  let w := (fetchData (λ _ _, false) 0 [] 0 "k" 0%nat (λ _, Fulfilled (JNum 7)) noOptions
              (subscribe "k" 1%nat emptyWorld)).2 in
  let w' := unsubscribe "k" 1%nat w in
  refreshIntervals w !! "k" = Some 1%positive ∧
  timers w' !! 1%positive = None ∧
  cache w' = cache w ∧
  (intervalFires 30000 1%positive w').1 = None.
Proof.
  intros w w'.
  assert (Hok : World_ok w).
  { apply (reachable_ok (λ _ _, false)).
    exists [(0, EvSubscribe "k" 1%nat); (0, EvFetchData "k" noOptions);
            (0, EvSettled "k" 0%nat noOptions (mkLoaderState false 0 0 None) (Fulfilled (JNum 7)))].
    reflexivity. }
  destruct (unsubscribe_last_cancels_schedule (λ _ _, false) "k" 1%nat w Hok eq_refl)
    as (_ & _ & Hcleared & _ & Hcache & Hquiet).
  split; [reflexivity|]. split; [by apply Hcleared|]. split; [exact Hcache|].
  destruct (intervalFires 30000 1%positive w').1 as [[task e]|] eqn:Hfire; [|done].
  exfalso. vm_compute in Hfire. discriminate Hfire.
Defined.

(** ** C8: subscriber fan-out *)

(** C8. When the fetch of a [fetchData] call is fulfilled with [d], the call
    resolves with [d] and every callback registered for the key at that
    moment is invoked exactly once, with [d], whichever callbacks throw;
    each throw is logged. *)
Theorem fetchData_notifies_subscribers
    throws t0 evs t1 key f (fetcher : Fetcher) o w ls w1 d subs :
  World_ok w →
  fetchData_begin t0 key o w = (Fetching ls, w1) →
  settled (executeWithRetry fetcher key (retryOnErrorOf o) w1) = Fulfilled d →
  subscribers (run throws evs w1) !! key = Some subs →
  let rep := (fetchData throws t0 evs t1 key f fetcher o w).1 in
  outcome rep = Some (Fulfilled d) ∧
  (∀ cb, cb ∈ subs → timesCalled cb (effects rep) = 1%nat) ∧
  (∀ cb v, Called cb v ∈ effects rep → cb ∈ subs ∧ v = d) ∧
  (∀ cb, cb ∈ subs → throws cb d = true →
         ConsoleError "Subscriber callback error:" ∈ effects rep).
Proof.
  intros Hok Hbegin Hd Hsubs rep.
  assert (Hok1 : World_ok (run throws evs w1)).
  { apply run_ok. apply (World_ok_sameRegistry w); [|done].
    pose proof (fetchData_begin_sameRegistry t0 key o w) as H.
    by rewrite Hbegin in H. }
  assert (Hrep : outcome rep = Some (Fulfilled d)
               ∧ effects rep = concat (map (notifyOne throws d) subs)).
  { subst rep. unfold fetchData. rewrite Hbegin. cbv zeta. rewrite Hd.
    cbn [fetchData_continue].
    pose proof (fetchData_then_effects throws t1 key f o d (run throws evs w1)) as Hfx.
    destruct (fetchData_then throws t1 key f o d (run throws evs w1)) as [fx w2]. simpl in *.
    by rewrite Hfx, Hsubs. }
  destruct Hrep as [Hout Hfx]. rewrite Hfx.
  destruct (subs_set _ Hok1 key subs Hsubs) as [Hnd _].
  split; [done|]. split; [|split].
  - intros cb Hin. rewrite (timesCalled_notify throws d cb subs Hnd).
    by rewrite decide_True.
  - intros cb v Hcalled. by apply (notify_Called throws).
  - intros cb Hin Hthrows. by apply (notify_logged throws d subs cb).
Qed.

Lemma fetchData_notifies_subscribers_witness :
  let throws : Callback → JsVal → bool := λ cb _, (cb =? 1)%nat in
  let w := subscribe "k" 1%nat emptyWorld in
  let evs := [(20, EvSubscribe "k" 2%nat)] in
  let rep := (fetchData throws 0 evs 50 "k" 0%nat (λ _, Fulfilled (JNum 7)) noOptions w).1 in
  outcome rep = Some (Fulfilled (JNum 7)) ∧
  timesCalled 1%nat (effects rep) = 1%nat ∧
  timesCalled 2%nat (effects rep) = 1%nat.
Proof.
  intros throws w evs rep.
  assert (Hok : World_ok w) by (apply subscribe_ok, World_ok_empty).
  destruct (fetchData_notifies_subscribers throws 0 evs 50 "k" 0%nat (λ _, Fulfilled (JNum 7))
              noOptions w (mkLoaderState false 0 0 None)
              (setLoaderState "k" (mkLoaderState true 0 0 None) w) (JNum 7) [1%nat; 2%nat]
              Hok eq_refl eq_refl eq_refl) as (Hout & Honce & _).
  split; [exact Hout|]. split.
  - apply Honce. apply list_elem_of_here.
  - apply Honce. apply list_elem_of_further, list_elem_of_here.
Defined.

(** ** C9: what a waiting caller is rejected with *)

(** C9 (as amended). A call that finds the key in flight waits: its polls
    poll again as long as the fetch is in flight.  When the in-flight call
    has completed and the key holds no entry that is unexpired at the poll,
    then, whatever runs between the completion and the poll short of a
    fetch for the key storing an entry, the poll rejects with a new
    [Error('Loader completed but no data available')] unless a fetch for
    the key is in flight again, in which case it polls again.  Directly
    after the completion no fetch is in flight.  The first caller, when its
    fetcher failed and there is no entry, is rejected with the fetcher's
    error, not with that new one. *)
Theorem waitForLoader_rejects_with_new_error
    throws tB evs1 t1 evs3 tP key f o ls (r : Outcome) oB w wB :
  fetchData_begin tB key oB w = (AwaitLoader, wB) →
  let fin := fetchData_continue throws t1 key f o ls r (run throws evs1 wB) in
  (∀ e, cache fin.2 !! key = Some e → tP > expiresAt e) →
  forallb (λ te, negb (storesEntry key te.2)) evs3 = true →
  let wP := run throws evs3 fin.2 in
  (∀ evs0 t, forallb (λ te, negb (releases key te.2)) evs0 = true →
     checkLoader t key (run throws evs0 wB) = (PollAgain, run throws evs0 wB)) ∧
  (checkLoader tP key wP).1
  = (if isLoading (getLoaderState key wP) then PollAgain
     else PollSettled (Rejected (NewError "Loader completed but no data available"))) ∧
  isLoading (getLoaderState key fin.2) = false ∧
  (∀ err, r = Rejected err → cache fin.2 !! key = None → fin.1.1 = Rejected err).
Proof.
  intros Hwait fin Hnone Hevs wP.
  split.
  { intros evs0 t Hevs0. apply checkLoader_busy, run_keeps_loading; [done|].
    by apply (fetchData_begin_AwaitLoader tB key oB w). }
  split.
  { rewrite checkLoader_spec. destruct (isLoading (getLoaderState key wP)); [done|].
    destruct (cache wP !! key) as [e|] eqn:He; [|done].
    apply (run_cache_shrinks throws evs3 fin.2 key e Hevs) in He.
    specialize (Hnone e He).
    replace (tP <=? expiresAt e) with false by (symmetry; apply Z.leb_gt; lia). done. }
  split; [apply fetchData_continue_idle|].
  intros err -> Hc. subst fin. cbn [fetchData_continue] in *.
  rewrite fetchData_catch_cache in Hc.
  unfold fetchData_catch. cbn [cache setLoaderState with_loaders]. by rewrite Hc.
Qed.

Lemma waitForLoader_rejects_with_new_error_witness :
  let wA := (fetchData_begin 0 "k" noOptions emptyWorld).2 in
  let wB := (fetchData_begin 10 "k" noOptions wA).2 in
  let fin := fetchData_continue (λ _ _, false) 4750 "k" 0%nat noOptions
                (mkLoaderState false 0 0 None) (Rejected (FetcherError "down")) wB in
  let between := [(4760, EvFetchData "other" noOptions); (4770, EvSubscribe "k" 1%nat)] in
  (checkLoader 110 "k" wB).1 = PollAgain ∧
  fin.1.1 = Rejected (FetcherError "down") ∧
  (checkLoader 4810 "k" (run (λ _ _, false) between fin.2)).1
  = PollSettled (Rejected (NewError "Loader completed but no data available")).
Proof.
  intros wA wB fin between.
  destruct (waitForLoader_rejects_with_new_error (λ _ _, false) 10 [] 4750 between 4810
              "k" 0%nat noOptions (mkLoaderState false 0 0 None)
              (Rejected (FetcherError "down")) noOptions wA wB eq_refl)
    as (Hagain & Hpoll & _ & Herr).
  - intros e He. vm_compute in He. discriminate He.
  - reflexivity.
  - split; [exact (f_equal fst (Hagain [] 110 eq_refl))|].
    split; [exact (Herr (FetcherError "down") eq_refl eq_refl)|].
    exact Hpoll.
Defined.

(** C9, as the specification states it, fails when a third call for the
    key enters between the completion and the waiting caller's next poll.
    The first call fails at 4750 and leaves no entry; a third call enters at
    4760 and marks the key as loading again; the waiting caller's poll at
    4810 therefore polls again; the third call's fetch is fulfilled at 4900,
    and the poll at 4910 resolves the waiting caller with that value: it is
    not rejected. *)
Lemma waitForLoader_third_caller_counterexample :
  let wA := (fetchData_begin 0 "k" noOptions emptyWorld).2 in
  let b := fetchData (λ _ _, false) 10 [] 10 "k" 0%nat (λ _, Fulfilled (JStr "unused"))
             noOptions wA in
  let finA := fetchData_continue (λ _ _, false) 4750 "k" 0%nat noOptions
                (mkLoaderState false 0 0 None) (Rejected (FetcherError "down")) b.2 in
  let c0 := fetchData_begin 4760 "k" noOptions finA.2 in
  let c := fetchData (λ _ _, false) 4760 [(4810, EvCheckLoader "k")] 4900 "k" 1%nat
             (λ _, Fulfilled (JStr "fresh")) noOptions finA.2 in
  outcome b.1 = None ∧ invocations b.1 = 0%nat ∧
  finA.1.1 = Rejected (FetcherError "down") ∧
  cache finA.2 !! "k" = None ∧
  (checkLoader 4810 "k" c0.2).1 = PollAgain ∧
  outcome c.1 = Some (Fulfilled (JStr "fresh")) ∧
  (checkLoader 4910 "k" c.2).1 = PollSettled (Fulfilled (JStr "fresh")).
Proof. vm_compute. done. Qed.

(** ** C10: the opening lookup evicts expired entries *)

(** C10. The lookup that opens [fetchData] deletes the key's entry when the
    clock is past its [expiresAt]; after it the key holds no expired entry;
    and when the call then fails, the fallback can only hand out an entry
    whose [expiresAt] had not passed when the call began, whatever ran
    while the call was in flight. *)
Theorem fetchData_lookup_evicts throws t0 key o w :
  (∀ e, cache w !! key = Some e → t0 > expiresAt e →
        cache (fetchData_begin t0 key o w).2 !! key = None) ∧
  (∀ e, cache (fetchData_begin t0 key o w).2 !! key = Some e → t0 ≤ expiresAt e) ∧
  (∀ ls w1 evs t1 err v fx w3,
     fetchData_begin t0 key o w = (Fetching ls, w1) →
     forallb (storesAfter t0) evs = true →
     fetchData_catch t1 key ls err (run throws evs w1) = (Fulfilled v, fx, w3) →
     ∃ e, cache (run throws evs w1) !! key = Some e ∧ data e = v ∧ t0 ≤ expiresAt e) ∧
  (∀ ls w1 t1 err v fx w3,
     fetchData_begin t0 key o w = (Fetching ls, w1) →
     fetchData_catch t1 key ls err w1 = (Fulfilled v, fx, w3) →
     ∃ e, cache w !! key = Some e ∧ data e = v ∧ t0 ≤ expiresAt e).
Proof.
  assert (Hafter : ∀ e, cache (fetchData_begin t0 key o w).2 !! key = Some e →
                        cache w !! key = Some e ∧ t0 ≤ expiresAt e).
  { intros e. rewrite fetchData_begin_cache. apply getFromCache_cache. }
  assert (Hcatch : ∀ t1 ls err w2 v fx w3,
            fetchData_catch t1 key ls err w2 = (Fulfilled v, fx, w3) →
            ∃ e, cache w2 !! key = Some e ∧ data e = v).
  { intros t1 ls err w2 v fx w3. unfold fetchData_catch.
    cbn [cache setLoaderState with_loaders].
    destruct (cache w2 !! key) as [e|]; [|done].
    intros [= <- _ _]. by exists e. }
  repeat split.
  - intros e He Hdead. rewrite fetchData_begin_cache.
    rewrite (getFromCache_expired _ _ _ _ He Hdead). simpl. apply lookup_delete_eq.
  - intros e He. by apply Hafter.
  - intros ls w1 evs t1 err v fx w3 Hbegin Hevs Hc.
    destruct (Hcatch _ _ _ _ _ _ _ Hc) as (e & He & Hv).
    exists e. repeat split; [done..|].
    apply (run_no_expired throws t0 key evs w1 Hevs); [|done].
    intros e' He'. apply Hafter. by rewrite Hbegin.
  - intros ls w1 t1 err v fx w3 Hbegin Hc.
    destruct (Hcatch _ _ _ _ _ _ _ Hc) as (e & He & Hv).
    exists e. destruct (Hafter e) as [? ?]; [by rewrite Hbegin|]. done.
Qed.

Lemma fetchData_lookup_evicts_witness :
  let w := setCache 0 "k" (JStr "old") 30000 emptyWorld in
  let a := fetchData_begin 25200 "k" noOptions w in
  let evs := [(25210, EvFetchData "k" noOptions); (25310, EvCheckLoader "k");
              (26000, EvSubscribe "k" 1%nat)] in
  ∃ e, cache (run (λ _ _, false) evs a.2) !! "k" = Some e ∧
       data e = JStr "old" ∧ 25200 ≤ expiresAt e.
Proof.
  intros w a evs.
  destruct (fetchData_lookup_evicts (λ _ _, false) 25200 "k" noOptions w)
    as (_ & _ & Hfallback & _).
  apply (Hfallback (mkLoaderState false 0 0 None) a.2 evs 29960 (FetcherError "down")
           (JStr "old")
           [ConsoleError "Data fetch failed"; ConsoleWarn "Using cached data due to fetch error"]
           (fetchData_catch 29960 "k" (mkLoaderState false 0 0 None) (FetcherError "down")
              (run (λ _ _, false) evs a.2)).2);
    reflexivity.
Defined.

(** * Further properties of the manager *)

(** ** Helpers *)

Lemma executeWithRetry_calls (fetcher : Fetcher) key retry w :
  (1 ≤ fetcherCalls (executeWithRetry fetcher key retry w) ≤ S maxRetries)%nat.
Proof.
  unfold executeWithRetry.
  destruct (negb retry || (maxRetries <=? errorCount (getLoaderState key w))%nat).
  - simpl. unfold maxRetries. lia.
  - destruct (retryLoop_calls fetcher (S maxRetries) 0 Undefined) as [Hle Hpos].
    specialize (Hpos ltac:(lia)). lia.
Qed.

Lemma fetchData_then_loader throws now key f o d w :
  getLoaderState key (fetchData_then throws now key f o d w).2 = mkLoaderState false now 0 None.
Proof.
  unfold fetchData_then. cbn [snd]. unfold getLoaderState, setLoaderState. simpl.
  by rewrite lookup_insert_eq.
Qed.

Lemma sameRegistry_trans w1 w2 w3 :
  sameRegistry w1 w2 → sameRegistry w2 w3 → sameRegistry w1 w3.
Proof.
  intros (Hs & Hr & Ht & Hn) (Hs' & Hr' & Ht' & Hn').
  repeat split; congruence.
Qed.

(** ** X1: when a stored value is served *)

(** The two ways the call after a fulfilled fetch can go. *)
Lemma fetchData_after_store_cases
    throws t0 key f o d w t evs t1 f' (fetcher' : Fetcher) o' :
  let w1 := (fetchData_then throws t0 key f o d w).2 in
  let second := fetchData throws t evs t1 key f' fetcher' o' w1 in
  if truthy d && (t <=? t0 + cacheDurationOf o) && (10 * (t - t0) <=? 8 * maxAgeOf o')
  then second = (mkReport (Some (Fulfilled d)) 0 [] [], w1)
  else (fetchData_begin t key o' w1).1 = Fetching (mkLoaderState false t0 0 None)
       ∧ (1 ≤ invocations second.1)%nat.
Proof.
  intros w1 second.
  assert (Hc : cache w1 !! key = Some (mkCacheEntry d t0 (t0 + cacheDurationOf o))).
  { unfold w1. by rewrite fetchData_then_cache, lookup_insert_eq. }
  assert (Hl : getLoaderState key w1 = mkLoaderState false t0 0 None)
    by apply fetchData_then_loader.
  assert (Hfetch : ∀ w2 ls, fetchData_begin t key o' w1 = (Fetching ls, w2) →
            (1 ≤ invocations second.1)%nat).
  { intros w2 ls Hb. subst second. unfold fetchData. rewrite Hb. cbv zeta.
    pose proof (executeWithRetry_calls fetcher' key (retryOnErrorOf o') w2) as Hcalls.
    destruct (fetchData_continue throws t1 key f' o' ls _ (run throws evs w2)) as [[r fx] w3].
    simpl. lia. }
  destruct (Z.leb_spec t (t0 + cacheDurationOf o)) as [Hlive|Hdead].
  - pose proof (getFromCache_live t key w1 _ Hc Hlive) as Hg. simpl in Hg.
    assert (Hsr : shouldRefresh t key (criticalOf o') w1
                  = negb (10 * (t - t0) <=? 8 * maxAgeOf o')).
    { unfold shouldRefresh, maxAgeOf. rewrite Hc. simpl.
      destruct (Z.gtb_spec (10 * (t - t0))
                  (8 * (if criticalOf o' then criticalDataCacheDuration else defaultCacheDuration)));
        destruct (Z.leb_spec (10 * (t - t0))
                  (8 * (if criticalOf o' then criticalDataCacheDuration else defaultCacheDuration)));
        try done; lia. }
    assert (Hb : fetchData_begin t key o' w1
                 = if truthy d && (10 * (t - t0) <=? 8 * maxAgeOf o')
                   then (CacheHit d, w1)
                   else (Fetching (mkLoaderState false t0 0 None),
                         setLoaderState key (mkLoaderState true t 0 None) w1)).
    { unfold fetchData_begin. rewrite Hg. rewrite Hsr, negb_involutive. rewrite Hl. simpl.
      by destruct (truthy d && (10 * (t - t0) <=? 8 * maxAgeOf o')). }
    rewrite andb_true_r.
    destruct (truthy d && (10 * (t - t0) <=? 8 * maxAgeOf o')) eqn:Hcond.
    + subst second. unfold fetchData. by rewrite Hb.
    + split; [by rewrite Hb|]. by apply (Hfetch _ _ Hb).
  - rewrite andb_false_r. simpl.
    assert (Hb : fetchData_begin t key o' w1
                 = (Fetching (mkLoaderState false t0 0 None),
                    setLoaderState key (mkLoaderState true t 0 None)
                      (with_cache (delete key (cache w1)) w1))).
    { assert (Hl' : getLoaderState key (with_cache (delete key (cache w1)) w1)
                    = mkLoaderState false t0 0 None) by exact Hl.
      unfold fetchData_begin.
      rewrite (getFromCache_expired t key w1 _ Hc) by (simpl; lia).
      cbn [truthy andb]. by rewrite Hl'. }
    split; [by rewrite Hb|]. by apply (Hfetch _ _ Hb).
Qed.

(** X1. After a fetch for a key was fulfilled with [d] at [t0] under options
    [o], the next [fetchData] call for the key, entered at [t] under options
    [o'], is answered from the cache exactly when [d] is truthy, [t] is not
    past [t0 + cacheDuration] of the storing call, and [t - t0] is not more
    than 80% of the asking call's [maxAge]; the world is then unchanged and
    the fetcher is not invoked.  In every other case the call marks the key
    as loading and invokes its fetcher. *)
Theorem fetchData_after_store
    throws t0 key f o d w t evs t1 f' (fetcher' : Fetcher) o' :
  let w1 := (fetchData_then throws t0 key f o d w).2 in
  let second := fetchData throws t evs t1 key f' fetcher' o' w1 in
  if truthy d && (t <=? t0 + cacheDurationOf o) && (10 * (t - t0) <=? 8 * maxAgeOf o')
  then second = (mkReport (Some (Fulfilled d)) 0 [] [], w1)
  else (fetchData_begin t key o' w1).1 = Fetching (mkLoaderState false t0 0 None)
       ∧ (1 ≤ invocations second.1)%nat.
Proof. apply fetchData_after_store_cases. Qed.

(** ** X2: consecutive failures *)

(** One failing call on a key without cache entry. *)
Lemma fetchData_failing_step throws t0 t1 key f (fetcher : Fetcher) o w :
  cache w !! key = None →
  isLoading (getLoaderState key w) = false →
  (∀ i, ∃ err, fetcher i = Rejected err) →
  let n := errorCount (getLoaderState key w) in
  let res := fetchData throws t0 [] t1 key f fetcher o w in
  (∃ err, outcome res.1 = Some (Rejected err)) ∧
  invocations res.1 = (if retryOnErrorOf o && (n <? 3)%nat then 4 else 1)%nat ∧
  cache res.2 !! key = None ∧
  getLoaderState key res.2
  = mkLoaderState false t1 (n + 1) (Some (Qred (inject_Z t1 + backoffMs (n + 1)))).
Proof.
  intros Hnone Hidle Hfail n res. subst res n.
  unfold fetchData, fetchData_begin, getFromCache. rewrite Hnone.
  cbn [truthy andb]. rewrite Hidle. cbn [run foldl].
  set (ls := getLoaderState key w).
  set (w1 := setLoaderState key _ w).
  assert (Hec : errorCount (getLoaderState key w1) = errorCount ls).
  { unfold getLoaderState at 1, w1, setLoaderState. simpl. by rewrite lookup_insert_eq. }
  destruct (executeWithRetry_all_rejected fetcher key (retryOnErrorOf o) w1 Hfail)
    as (err & Hs & _ & Hcount).
  assert (Hcalls : fetcherCalls (executeWithRetry fetcher key (retryOnErrorOf o) w1)
                   = (if retryOnErrorOf o && (errorCount ls <? 3)%nat then 4 else 1)%nat).
  { destruct (retryOnErrorOf o) eqn:Hr; simpl.
    - destruct (Nat.ltb_spec (errorCount ls) 3) as [Hlt|Hge].
      + apply Hcount; [done|]. rewrite Hec. unfold maxRetries. lia.
      + unfold executeWithRetry. rewrite Hec. cbn [negb orb].
        replace (maxRetries <=? errorCount ls)%nat with true; [done|].
        symmetry. apply Nat.leb_le. unfold maxRetries. lia.
    - done. }
  rewrite Hs. cbn [fetchData_continue]. unfold fetchData_catch.
  cbn [cache setLoaderState with_loaders w1]. rewrite Hnone. simpl.
  split; [by exists err|]. split; [exact Hcalls|]. split; [done|].
  unfold getLoaderState. simpl. by rewrite lookup_insert_eq.
Qed.

(** X2. Calls for a key without cache entry whose fetcher keeps failing, made
    one after the other: every call rejects; the recorded failure count
    grows by one per call; a call makes 4 invocations while fewer than 3
    failures are recorded and [retryOnError] is on, and a single one from
    then on. *)
Theorem repeatCalls_failing throws times key f (fetcher : Fetcher) o w :
  cache w !! key = None →
  isLoading (getLoaderState key w) = false →
  (∀ i, ∃ err, fetcher i = Rejected err) →
  let n0 := errorCount (getLoaderState key w) in
  let res := repeatCalls throws times key f fetcher o w in
  errorCount (getLoaderState key res.2) = (n0 + length times)%nat ∧
  isLoading (getLoaderState key res.2) = false ∧
  map invocations res.1
  = map (λ i, if retryOnErrorOf o && (n0 + i <? 3)%nat then 4%nat else 1%nat)
        (seq 0 (length times)) ∧
  Forall (λ rep, ∃ err, outcome rep = Some (Rejected err)) res.1.
Proof.
  intros Hnone Hidle Hfail. revert w Hnone Hidle.
  induction times as [|[t0 t1] times IH]; intros w Hnone Hidle; cbv zeta.
  - simpl. rewrite Nat.add_0_r. done.
  - destruct (fetchData_failing_step throws t0 t1 key f fetcher o w Hnone Hidle Hfail)
      as (Hrej & Hinv & Hnone1 & Hls1).
    cbn [repeatCalls].
    destruct (fetchData throws t0 [] t1 key f fetcher o w) as [rep w1]. simpl in *.
    assert (Hidle1 : isLoading (getLoaderState key w1) = false) by by rewrite Hls1.
    specialize (IH w1 Hnone1 Hidle1). cbv zeta in IH.
    destruct (repeatCalls throws times key f fetcher o w1) as [reps w2]. simpl in *.
    destruct IH as (IHn & IHidle & IHinv & IHrej).
    rewrite Hls1 in IHn, IHinv. simpl in IHn, IHinv.
    split; [lia|]. split; [done|]. split.
    + f_equal; [by rewrite Nat.add_0_r|].
      rewrite IHinv, <- seq_shift, map_map.
      apply map_ext. intros i. by replace (errorCount (getLoaderState key w) + 1 + i)%nat
        with (errorCount (getLoaderState key w) + S i)%nat by lia.
    + by constructor.
Qed.

Lemma repeatCalls_failing_witness :
  let fetcher : Fetcher := λ _, Rejected (FetcherError "down") in
  let res := repeatCalls (λ _ _, false)
               [(0, 4750); (10000, 14750); (20000, 24750); (30000, 30010); (40000, 40010)]
               "k" 0%nat fetcher noOptions emptyWorld in
  errorCount (getLoaderState "k" res.2) = 5%nat ∧
  map invocations res.1 = [4; 4; 4; 1; 1]%nat.
Proof.
  intros fetcher res.
  destruct (repeatCalls_failing (λ _ _, false)
              [(0, 4750); (10000, 14750); (20000, 24750); (30000, 30010); (40000, 40010)]
              "k" 0%nat fetcher noOptions emptyWorld) as (Hn & _ & Hinv & _).
  - reflexivity.
  - reflexivity.
  - intros i. by exists (FetcherError "down").
  - split; [exact Hn|exact Hinv].
Defined.

(** ** X3: a call with autoRefresh off leaves the schedules alone *)

Lemma fetchData_then_sameRegistry throws now key f o d w :
  autoRefreshOf o = false → sameRegistry w (fetchData_then throws now key f o d w).2.
Proof. intros Hoff. unfold fetchData_then. rewrite Hoff. done. Qed.

Lemma fetchData_off_sameRegistry throws t0 t1 key f (fetcher : Fetcher) o w :
  autoRefreshOf o = false →
  sameRegistry w (fetchData throws t0 [] t1 key f fetcher o w).2.
Proof.
  intros Hoff. unfold fetchData.
  pose proof (fetchData_begin_sameRegistry t0 key o w) as Hb.
  destruct (fetchData_begin t0 key o w) as [[v| |ls] w1]; simpl in *; [done..|].
  destruct (settled (executeWithRetry fetcher key (retryOnErrorOf o) w1)) as [d|err];
    cbn [fetchData_continue].
  - pose proof (fetchData_then_sameRegistry throws t1 key f o d w1 Hoff) as Ht.
    destruct (fetchData_then throws t1 key f o d w1) as [fx w2]. simpl in *.
    by apply (sameRegistry_trans w w1 w2).
  - pose proof (fetchData_catch_sameRegistry t1 key ls err w1) as Hc.
    destruct (fetchData_catch t1 key ls err w1) as [[r fx] w2]. simpl in *.
    by apply (sameRegistry_trans w w1 w2).
Qed.

(** The continuation of a call with [autoRefresh: false], on the world the
    interleaved events left. *)
Lemma fetchData_continue_sameRegistry throws now key f o ls r w :
  autoRefreshOf o = false →
  sameRegistry w (fetchData_continue throws now key f o ls r w).2.
Proof.
  intros Hoff. destruct r as [d|err]; cbn [fetchData_continue].
  - pose proof (fetchData_then_sameRegistry throws now key f o d w Hoff) as Ht.
    by destruct (fetchData_then throws now key f o d w) as [fx w2].
  - apply fetchData_catch_sameRegistry.
Qed.

(** X3. A [fetchData] call with [autoRefresh: false], whichever way it ends
    (cache hit, wait, fulfilled fetch, failure), creates, replaces and
    cancels no interval and changes no subscriber set.  The callback of an
    interval is such a call: a firing, run to the end of the refresh it
    starts, leaves every interval (its own included), every recorded handle
    and every subscriber set as they were, so a schedule is never re-armed
    by its own firings; with events interleaved while the refresh awaits,
    the continuation of the refresh leaves them as those events made them. *)
Theorem fetchData_without_autoRefresh throws t0 t1 key f (fetcher : Fetcher) o w :
  autoRefreshOf o = false →
  sameRegistry w (fetchData throws t0 [] t1 key f fetcher o w).2 ∧
  (∀ h fetcher', sameRegistry w (intervalRefresh throws t0 [] t1 h fetcher' w).2) ∧
  (∀ evs h fetcher' task ls w1,
     intervalFires t0 h w = (Some (task, Fetching ls), w1) →
     sameRegistry w w1 ∧
     sameRegistry (run throws evs w1) (intervalRefresh throws t0 evs t1 h fetcher' w).2).
Proof.
  intros Hoff. split; [by apply fetchData_off_sameRegistry|]. split.
  - intros h fetcher'. unfold intervalRefresh.
    destruct (timers w !! h) as [task|]; [|done].
    destruct (subscribers w !! task_key task) as [[|c subs]|]; [done| |done].
    pose proof (fetchData_off_sameRegistry throws t0 t1 (task_key task) (task_fetcher task)
                  fetcher' (withoutAutoRefresh (task_options task)) w eq_refl) as Hsame.
    by destruct (fetchData throws t0 [] t1 (task_key task) (task_fetcher task) fetcher'
                   (withoutAutoRefresh (task_options task)) w) as [rep w1].
  - intros evs h fetcher' task ls w1 Hfire.
    unfold intervalFires in Hfire. unfold intervalRefresh.
    destruct (timers w !! h) as [task'|]; [|done].
    destruct (subscribers w !! task_key task') as [[|c subs]|]; [done| |done].
    pose proof (fetchData_begin_sameRegistry t0 (task_key task')
                  (withoutAutoRefresh (task_options task')) w) as Hb.
    unfold fetchData.
    destruct (fetchData_begin t0 (task_key task')
                (withoutAutoRefresh (task_options task')) w) as [e w0].
    injection Hfire as -> -> ->. split; [done|]. cbv zeta.
    pose proof (fetchData_continue_sameRegistry throws t1 (task_key task) (task_fetcher task)
                  (withoutAutoRefresh (task_options task)) ls
                  (settled (executeWithRetry fetcher' (task_key task)
                              (retryOnErrorOf (withoutAutoRefresh (task_options task))) w1))
                  (run throws evs w1) eq_refl) as Hc.
    by destruct (fetchData_continue throws t1 (task_key task) (task_fetcher task)
                   (withoutAutoRefresh (task_options task)) ls _ (run throws evs w1))
      as [[r fx] w2].
Qed.

Lemma fetchData_without_autoRefresh_witness :
  let w := (fetchData (λ _ _, false) 0 [] 0 "k" 0%nat (λ _, Fulfilled (JNum 1)) noOptions
              (subscribe "k" 1%nat emptyWorld)).2 in
  let w' := (fetchData (λ _ _, false) 30000 [] 30050 "k" 0%nat (λ _, Fulfilled (JNum 2))
               (withoutAutoRefresh noOptions) w).2 in
  let fired := intervalRefresh (λ _ _, false) 30000 [] 30050 1%positive
                 (λ _, Fulfilled (JNum 2)) w in
  refreshIntervals w !! "k" = Some 1%positive ∧
  timers w !! 1%positive = Some (mkIntervalTask "k" 0%nat noOptions 30000) ∧
  sameRegistry w w' ∧
  option_map invocations fired.1 = Some 1%nat ∧
  sameRegistry w fired.2.
Proof.
  intros w w' fired.
  destruct (fetchData_without_autoRefresh (λ _ _, false) 30000 30050 "k" 0%nat
              (λ _, Fulfilled (JNum 2)) (withoutAutoRefresh noOptions) w eq_refl)
    as (Hcall & Hfired & _).
  split; [reflexivity|]. split; [reflexivity|]. split; [exact Hcall|].
  split; [reflexivity|]. exact (Hfired 1%positive (λ _, Fulfilled (JNum 2))).
Defined.

(** ** The interval registry in reachable worlds *)

Lemma Registry_ok_sameRegistry w w' : sameRegistry w w' → Registry_ok w → Registry_ok w'.
Proof.
  intros (_ & Hr & _ & Hn) [H1 H2]. split; rewrite ?Hr, ?Hn; done.
Qed.

Lemma Registry_ok_empty : Registry_ok emptyWorld.
Proof. split; intros *; unfold emptyWorld; simpl; by rewrite lookup_empty. Qed.

(** What arming does to the registry, field by field. *)
Lemma setupAutoRefresh_fields key f o w :
  let w' := setupAutoRefresh key f o w in
  refreshIntervals w' = <[key := nextHandle w]> (refreshIntervals w) ∧
  nextHandle w' = Pos.succ (nextHandle w) ∧
  timers w' = <[nextHandle w := mkIntervalTask key f o (periodOf o)]>
                (match refreshIntervals w !! key with
                 | Some existingInterval => delete existingInterval (timers w)
                 | None => timers w
                 end).
Proof. unfold setupAutoRefresh. by destruct (refreshIntervals w !! key). Qed.

Lemma setupAutoRefresh_registry_ok key f o w :
  Registry_ok w → Registry_ok (setupAutoRefresh key f o w).
Proof.
  intros [Hiss Honce].
  destruct (setupAutoRefresh_fields key f o w) as (Hr & Hn & _).
  split; rewrite Hr, ?Hn.
  - intros k h. rewrite lookup_insert. case_decide.
    + intros [= <-]. lia.
    + intros Hk. specialize (Hiss k h Hk). lia.
  - intros k1 k2 h. rewrite !lookup_insert.
    case_decide as H1; case_decide as H2; try congruence.
    + intros [= <-] Hk. specialize (Hiss k2 _ Hk). lia.
    + intros Hk [= <-]. specialize (Hiss k1 _ Hk). lia.
    + apply Honce.
Qed.

Lemma unsubscribe_registry_ok key cb w : Registry_ok w → Registry_ok (unsubscribe key cb w).
Proof.
  intros [Hiss Honce]. unfold unsubscribe.
  destruct (subscribers w !! key) as [subs|]; [|done].
  destruct (length (filter (λ c, c ≠ cb) subs) =? 0)%nat; [|done].
  cbv zeta. cbn [refreshIntervals with_subscribers].
  destruct (refreshIntervals w !! key) as [interval|] eqn:Hri; [|done].
  split; simpl.
  - intros k h. rewrite lookup_delete. case_decide; [done|]. apply Hiss.
  - intros k1 k2 h. rewrite !lookup_delete.
    case_decide; [done|]. case_decide; [done|]. apply Honce.
Qed.

Section RegistryTraces.

Context (throws : Callback → JsVal → bool).

Lemma step_registry_ok now ev w : Registry_ok w → Registry_ok (step throws now ev w).
Proof.
  intros Hok. destruct ev as [k o|k f o ls r|k|k cb|k cb|h|]; cbn [step].
  - apply (Registry_ok_sameRegistry w); [apply fetchData_begin_sameRegistry|done].
  - destruct r as [d|err]; cbn [fetchData_continue].
    + assert (H : Registry_ok (fetchData_then throws now k f o d w).2).
      { unfold fetchData_then. cbn [snd].
        apply (Registry_ok_sameRegistry
                 (if autoRefreshOf o
                  then setupAutoRefresh k f o (setCache now k d (cacheDurationOf o) w)
                  else setCache now k d (cacheDurationOf o) w)); [done|].
        destruct (autoRefreshOf o).
        - apply setupAutoRefresh_registry_ok. by apply (Registry_ok_sameRegistry w).
        - by apply (Registry_ok_sameRegistry w). }
      by destruct (fetchData_then throws now k f o d w).
    + apply (Registry_ok_sameRegistry w); [apply fetchData_catch_sameRegistry|done].
  - apply (Registry_ok_sameRegistry w); [apply checkLoader_sameRegistry|done].
  - destruct Hok as [Hiss Honce]. by split.
  - by apply unsubscribe_registry_ok.
  - apply (Registry_ok_sameRegistry w); [apply intervalFires_sameRegistry|done].
  - split; intros *; unfold destroy; simpl; by rewrite lookup_empty.
Qed.

Lemma run_registry_ok evs w : Registry_ok w → Registry_ok (run throws evs w).
Proof.
  revert w. induction evs as [|[now ev] evs IH]; intros w Hok; simpl; [done|].
  by apply IH, step_registry_ok.
Qed.

Lemma reachable_registry_ok w : reachable throws w → Registry_ok w.
Proof. intros [evs ->]. apply run_registry_ok, Registry_ok_empty. Qed.

End RegistryTraces.

(** ** X4: one schedule per key *)

(** X4. In every world the class can reach, whatever the interleaving: a key
    has at most one live interval, it is the one recorded for the key, no
    handle is recorded for two keys, and every live or recorded handle was
    issued before (handles are never reused). *)
Theorem schedule_unique throws w :
  reachable throws w →
  (∀ h1 h2 task1 task2,
     timers w !! h1 = Some task1 → timers w !! h2 = Some task2 →
     task_key task1 = task_key task2 → h1 = h2) ∧
  (∀ h task, timers w !! h = Some task →
     refreshIntervals w !! task_key task = Some h ∧ (h < nextHandle w)%positive) ∧
  (∀ k1 k2 h, refreshIntervals w !! k1 = Some h → refreshIntervals w !! k2 = Some h → k1 = k2) ∧
  (∀ k h, refreshIntervals w !! k = Some h → (h < nextHandle w)%positive).
Proof.
  intros Hreach.
  pose proof (reachable_ok throws w Hreach) as [_ Hrec Hiss].
  pose proof (reachable_registry_ok throws w Hreach) as [Hriss Honce].
  split; [|split; [|split]].
  - intros h1 h2 task1 task2 H1 H2 Hkey.
    apply Hrec in H1, H2. rewrite Hkey in H1. congruence.
  - intros h task Ht. split; [by apply Hrec|by apply (Hiss h task)].
  - exact Honce.
  - exact Hriss.
Qed.

Lemma schedule_unique_witness :
  let evs := [(0, EvSubscribe "a" 1%nat);
              (0, EvFetchData "a" noOptions);
              (50, EvSettled "a" 0%nat noOptions (mkLoaderState false 0 0 None) (Fulfilled (JNum 1)));
              (40000, EvFetchData "a" noOptions);
              (40050, EvSettled "a" 1%nat noOptions (mkLoaderState false 50 0 None) (Fulfilled (JNum 2)));
              (40060, EvFetchData "b" noOptions);
              (40100, EvSettled "b" 2%nat noOptions (mkLoaderState false 0 0 None) (Fulfilled (JNum 3)))] in
  let w := run (λ _ _, false) evs emptyWorld in
  timers w !! 1%positive = None ∧
  refreshIntervals w !! "a" = Some 2%positive ∧
  ∀ h task, timers w !! h = Some task → task_key task = "a" → h = 2%positive.
Proof.
  intros evs w.
  destruct (schedule_unique (λ _ _, false) w) as (Huniq & _).
  - by exists evs.
  - split; [reflexivity|]. split; [reflexivity|].
    intros h task Ht Hkey.
    apply (Huniq h 2%positive task
             (mkIntervalTask "a" 1%nat noOptions 30000) Ht); [reflexivity|exact Hkey].
Defined.

(** ** X5: a call touches its own key only *)

Lemma getFromCache_other now key w k' :
  k' ≠ key → cache (getFromCache now key w).2 !! k' = cache w !! k'.
Proof.
  intros Hne. unfold getFromCache. destruct (cache w !! key) as [e|]; [|done].
  destruct (now >? expiresAt e); simpl; [|done]. by rewrite lookup_delete_ne.
Qed.

Lemma fetchData_begin_other now key o w k' :
  k' ≠ key →
  cache (fetchData_begin now key o w).2 !! k' = cache w !! k' ∧
  loaders (fetchData_begin now key o w).2 !! k' = loaders w !! k'.
Proof.
  intros Hne. rewrite fetchData_begin_cache. split; [by apply getFromCache_other|].
  unfold fetchData_begin.
  destruct (getFromCache_frame now key w) as (Hl & _).
  destruct (getFromCache now key w) as [cached w0]; simpl in *.
  destruct (truthy cached && negb (shouldRefresh now key (criticalOf o) w0));
    [simpl; by rewrite Hl|].
  destruct (isLoading (getLoaderState key w0)); simpl; [by rewrite Hl|].
  rewrite lookup_insert_ne by done. by rewrite Hl.
Qed.

Lemma fetchData_continue_frame throws now key f o ls r w k' :
  k' ≠ key →
  cache (fetchData_continue throws now key f o ls r w).2 !! k' = cache w !! k' ∧
  loaders (fetchData_continue throws now key f o ls r w).2 !! k' = loaders w !! k' ∧
  subscribers (fetchData_continue throws now key f o ls r w).2 = subscribers w.
Proof.
  intros Hne. destruct r as [d|err]; cbn [fetchData_continue].
  - pose proof (fetchData_then_cache throws now key f o d w) as Hc.
    pose proof (fetchData_then_subscribers throws now key f o d w) as Hs.
    assert (Hl : loaders (fetchData_then throws now key f o d w).2 !! k' = loaders w !! k').
    { unfold fetchData_then. cbn [snd]. unfold setLoaderState. simpl.
      rewrite lookup_insert_ne by done.
      destruct (autoRefreshOf o); [|done].
      change (loaders (setupAutoRefresh key f o (setCache now key d (cacheDurationOf o) w)) !! k'
              = loaders w !! k').
      by rewrite setupAutoRefresh_loaders. }
    destruct (fetchData_then throws now key f o d w) as [fx w1]. simpl in *.
    by rewrite Hc, lookup_insert_ne.
  - pose proof (fetchData_catch_cache now key ls err w) as Hc.
    destruct (fetchData_catch_sameRegistry now key ls err w) as (Hs & _).
    assert (Hl : loaders (fetchData_catch now key ls err w).2 !! k' = loaders w !! k').
    { unfold fetchData_catch. cbn [cache setLoaderState with_loaders].
      destruct (cache w !! key); simpl; by rewrite lookup_insert_ne. }
    by rewrite Hc.
Qed.

(** Arming the schedule of one key leaves the live intervals of the other
    keys as they are. *)
Lemma setupAutoRefresh_other key f o w h task :
  World_ok w → Registry_ok w → task_key task ≠ key →
  (timers (setupAutoRefresh key f o w) !! h = Some task ↔ timers w !! h = Some task).
Proof.
  intros [_ Hrec Hiss] [_ Honce] Hne.
  destruct (setupAutoRefresh_fields key f o w) as (_ & _ & ->).
  rewrite lookup_insert. case_decide as Hh.
  - subst h. split.
    + intros [= <-]. done.
    + intros Ht. specialize (Hiss _ _ Ht). lia.
  - destruct (refreshIntervals w !! key) as [old|] eqn:Hold; [|done].
    rewrite lookup_delete. case_decide as Hold'; [|done].
    subst h. split; [done|]. intros Ht. exfalso. apply Hne.
    apply (Honce _ _ old (Hrec _ _ Ht) Hold).
Qed.

(** X5. In a reachable world a [fetchData] call for one key, run to its end
    with nothing interleaved, leaves every other key as it was: its cache
    entry, its loader state, its recorded interval and its live interval;
    and it changes no subscriber set. *)
Theorem fetchData_other_keys throws t0 t1 key f (fetcher : Fetcher) o w k' :
  reachable throws w →
  k' ≠ key →
  let w' := (fetchData throws t0 [] t1 key f fetcher o w).2 in
  cache w' !! k' = cache w !! k' ∧
  loaders w' !! k' = loaders w !! k' ∧
  refreshIntervals w' !! k' = refreshIntervals w !! k' ∧
  subscribers w' = subscribers w ∧
  (∀ h task, task_key task = k' →
     (timers w' !! h = Some task ↔ timers w !! h = Some task)).
Proof.
  intros Hreach Hne w'. subst w'.
  pose proof (reachable_ok throws w Hreach) as Hok.
  pose proof (reachable_registry_ok throws w Hreach) as Hrok.
  unfold fetchData.
  destruct (fetchData_begin_other t0 key o w k' Hne) as [Hbc Hbl].
  pose proof (fetchData_begin_sameRegistry t0 key o w) as Hbr.
  destruct (fetchData_begin t0 key o w) as [[v| |ls] w1]; simpl in *.
  - destruct Hbr as (-> & -> & -> & _). done.
  - destruct Hbr as (-> & -> & -> & _). done.
  - pose proof (World_ok_sameRegistry w w1 Hbr Hok) as Hok1.
    pose proof (Registry_ok_sameRegistry w w1 Hbr Hrok) as Hrok1.
    destruct Hbr as (Hs1 & Hr1 & Ht1 & Hn1).
    set (r := settled (executeWithRetry fetcher key (retryOnErrorOf o) w1)).
    destruct (fetchData_continue_frame throws t1 key f o ls r w1 k' Hne) as (Hcc & Hcl & Hcs).
    assert (Hreg : refreshIntervals (fetchData_continue throws t1 key f o ls r w1).2 !! k'
                   = refreshIntervals w1 !! k'
                   ∧ ∀ h task, task_key task = k' →
                       (timers (fetchData_continue throws t1 key f o ls r w1).2 !! h = Some task
                        ↔ timers w1 !! h = Some task)).
    { destruct r as [d|err]; cbn [fetchData_continue].
      - assert (Hthen : refreshIntervals (fetchData_then throws t1 key f o d w1).2 !! k'
                        = refreshIntervals w1 !! k'
                        ∧ ∀ h task, task_key task = k' →
                            (timers (fetchData_then throws t1 key f o d w1).2 !! h = Some task
                             ↔ timers w1 !! h = Some task)).
        { unfold fetchData_then. cbn [snd].
          destruct (autoRefreshOf o); [|done].
          set (w2 := setCache t1 key d (cacheDurationOf o) w1).
          change (refreshIntervals (setupAutoRefresh key f o w2) !! k' = refreshIntervals w2 !! k'
                  ∧ ∀ h task, task_key task = k' →
                      (timers (setupAutoRefresh key f o w2) !! h = Some task
                       ↔ timers w2 !! h = Some task)).
          assert (Hok2 : World_ok w2) by by apply (World_ok_sameRegistry w1).
          assert (Hrok2 : Registry_ok w2) by by apply (Registry_ok_sameRegistry w1).
          split.
          - destruct (setupAutoRefresh_fields key f o w2) as (-> & _).
            by rewrite lookup_insert_ne.
          - intros h task Hk. apply setupAutoRefresh_other; [done..|]. by rewrite Hk. }
        by destruct (fetchData_then throws t1 key f o d w1).
      - destruct (fetchData_catch_sameRegistry t1 key ls err w1) as (_ & -> & -> & _). done. }
    destruct Hreg as [Hri Htm].
    destruct (fetchData_continue throws t1 key f o ls r w1) as [[res fx] w2]. simpl in *.
    rewrite Hcc, Hcl, Hri, Hcs, Hbc, Hbl, Hr1, Hs1.
    repeat split; try done.
    + intros Ht. apply (Htm h task H) in Ht. by rewrite <- Ht1.
    + intros Ht. apply (Htm h task H). by rewrite Ht1.
Qed.

Lemma fetchData_other_keys_witness :
  let evs := [(0, EvSubscribe "a" 1%nat);
              (0, EvFetchData "a" noOptions);
              (50, EvSettled "a" 0%nat noOptions (mkLoaderState false 0 0 None) (Fulfilled (JNum 1)))] in
  let w := run (λ _ _, false) evs emptyWorld in
  let w' := (fetchData (λ _ _, false) 100 [] 150 "b" 1%nat (λ _, Fulfilled (JNum 2)) noOptions w).2 in
  cache w' !! "a" = Some (mkCacheEntry (JNum 1) 50 30050) ∧
  timers w' !! 1%positive = Some (mkIntervalTask "a" 0%nat noOptions 30000).
Proof.
  intros evs w w'.
  destruct (fetchData_other_keys (λ _ _, false) 100 150 "b" 1%nat (λ _, Fulfilled (JNum 2))
              noOptions w "a") as (Hc & _ & _ & _ & Ht).
  - by exists evs.
  - done.
  - split.
    + exact (eq_trans Hc eq_refl).
    + apply (Ht 1%positive (mkIntervalTask "a" 0%nat noOptions 30000)); reflexivity.
Defined.

(** ** X6: arming replaces the key's schedule *)

(** X6. In a reachable world, the continuation of a fulfilled fetch with
    [autoRefresh] on leaves the key with exactly one live interval: a new
    one, under a handle that was not live before, carrying this call's
    fetcher and options and the period [cacheDuration || 30000]; the interval
    recorded before is cleared.  It is armed whether or not the key has a
    subscriber. *)
Theorem fetchData_then_arms throws now key f o d w :
  reachable throws w →
  autoRefreshOf o = true →
  let w' := (fetchData_then throws now key f o d w).2 in
  let h := nextHandle w in
  timers w !! h = None ∧
  refreshIntervals w' !! key = Some h ∧
  timers w' !! h = Some (mkIntervalTask key f o (periodOf o)) ∧
  (∀ h' task, timers w' !! h' = Some task → task_key task = key → h' = h) ∧
  (∀ old, refreshIntervals w !! key = Some old → timers w' !! old = None).
Proof.
  intros Hreach Hon w' h.
  pose proof (reachable_ok throws w Hreach) as Hok.
  pose proof (reachable_registry_ok throws w Hreach) as Hrok.
  set (w1 := setCache now key d (cacheDurationOf o) w).
  assert (Hw' : refreshIntervals w' = refreshIntervals (setupAutoRefresh key f o w1)
              ∧ timers w' = timers (setupAutoRefresh key f o w1)).
  { subst w'. unfold fetchData_then. rewrite Hon. done. }
  destruct Hw' as [-> ->].
  destruct (setupAutoRefresh_fields key f o w1) as (-> & _ & ->).
  change (refreshIntervals w1) with (refreshIntervals w).
  change (timers w1) with (timers w). change (nextHandle w1) with h.
  assert (Hfresh : timers w !! h = None).
  { destruct (timers w !! h) as [task|] eqn:Ht; [|done].
    pose proof (handles_issued w Hok h task Ht). subst h. lia. }
  split; [done|]. split; [apply lookup_insert_eq|]. split; [apply lookup_insert_eq|].
  split.
  - intros h' task. rewrite lookup_insert. case_decide as Hh; [done|].
    intros Ht Hkey. exfalso.
    destruct (refreshIntervals w !! key) as [old|] eqn:Hold.
    + rewrite lookup_delete in Ht. case_decide as Hold'; [done|].
      pose proof (timers_recorded w Hok h' task Ht) as Hrec.
      rewrite Hkey, Hold in Hrec. congruence.
    + pose proof (timers_recorded w Hok h' task Ht) as Hrec.
      rewrite Hkey, Hold in Hrec. done.
  - intros old Hold. rewrite Hold.
    pose proof (recorded_issued w Hrok key old Hold) as Hlt.
    rewrite lookup_insert_ne by (subst h; lia). apply lookup_delete_eq.
Qed.

Lemma fetchData_then_arms_witness :
  let evs := [(0, EvFetchData "k" noOptions);
              (50, EvSettled "k" 0%nat noOptions (mkLoaderState false 0 0 None) (Fulfilled (JNum 1)))] in
  let w := run (λ _ _, false) evs emptyWorld in
  let o := mkOptions (Some 0) None None None in
  let w' := (fetchData_then (λ _ _, false) 40000 "k" 1%nat o (JNum 2) w).2 in
  refreshIntervals w' !! "k" = Some 2%positive ∧
  timers w' !! 2%positive = Some (mkIntervalTask "k" 1%nat o 30000) ∧
  timers w' !! 1%positive = None.
Proof.
  intros evs w o w'.
  destruct (fetchData_then_arms (λ _ _, false) 40000 "k" 1%nat o (JNum 2) w)
    as (_ & Hrec & Hlive & _ & Hold).
  - by exists evs.
  - reflexivity.
  - split; [exact Hrec|]. split; [exact Hlive|]. by apply Hold.
Defined.

(** ** X7: destroy *)

(** X7. In a reachable world [destroy] leaves nothing behind: the four maps
    are empty and no interval is live (only the handle counter of the
    runtime goes on).  Calling it again changes nothing, no interval fires
    afterwards, and the instance answers the next call like a fresh one: it
    fetches. *)
Theorem destroy_clears throws w :
  reachable throws w →
  destroy w = mkWorld ∅ ∅ ∅ ∅ ∅ (nextHandle w) ∧
  destroy (destroy w) = destroy w ∧
  (∀ now h, intervalFires now h (destroy w) = (None, destroy w)) ∧
  (∀ now key o, (fetchData_begin now key o (destroy w)).1
                = Fetching (mkLoaderState false 0 0 None)).
Proof.
  intros Hreach.
  pose proof (reachable_ok throws w Hreach) as Hok.
  assert (Hd : destroy w = mkWorld ∅ ∅ ∅ ∅ ∅ (nextHandle w)).
  { unfold destroy. f_equal. apply map_eq. intros h. rewrite lookup_empty.
    destruct (map_fold _ _ _ !! h) as [task|] eqn:Ht; [|done].
    apply destroy_timers in Ht as [Ht Hno]. exfalso.
    by apply (Hno (task_key task)), (timers_recorded w Hok). }
  split; [done|]. rewrite Hd. split; [|split].
  - unfold destroy. simpl. by rewrite map_fold_empty.
  - intros now h. unfold intervalFires. simpl. by rewrite lookup_empty.
  - intros now key o. unfold fetchData_begin, getFromCache, getLoaderState. simpl.
    by rewrite !lookup_empty.
Qed.

Lemma destroy_clears_witness :
  let evs := [(0, EvSubscribe "k" 1%nat); (0, EvFetchData "k" noOptions);
              (50, EvSettled "k" 0%nat noOptions (mkLoaderState false 0 0 None) (Fulfilled (JNum 1)))] in
  let w := run (λ _ _, false) evs emptyWorld in
  timers w !! 1%positive = Some (mkIntervalTask "k" 0%nat noOptions 30000) ∧
  destroy w = mkWorld ∅ ∅ ∅ ∅ ∅ 2%positive.
Proof.
  intros evs w. split; [reflexivity|].
  destruct (destroy_clears (λ _ _, false) w) as (Hd & _).
  - by exists evs.
  - exact Hd.
Defined.

(** ** X8: subscription order *)

Lemma calledIds_notify throws d subs :
  calledIds (concat (map (notifyOne throws d) subs)) = subs.
Proof.
  induction subs as [|c subs IH]; [done|].
  cbn [map concat]. unfold calledIds in *. rewrite omap_app, IH.
  unfold notifyOne. by destruct (throws c d).
Qed.

(** X8. Subscribers of a key are notified in the order they subscribed.
    [subscribe] puts a new callback last; subscribing a callback that is
    already registered changes nothing, so it is still notified once. *)
Theorem subscribe_order throws key cb d w :
  let before := default [] (subscribers w !! key) in
  calledIds (notifySubscribers throws key d w) = before ∧
  calledIds (notifySubscribers throws key d (subscribe key cb w))
  = (if decide (cb ∈ before) then before else before ++ [cb]) ∧
  subscribe key cb (subscribe key cb w) = subscribe key cb w ∧
  (cb ∈ before → subscribers (subscribe key cb w) = subscribers w).
Proof.
  intros before. subst before.
  split; [|split; [|split]].
  - unfold notifySubscribers. destruct (subscribers w !! key); simpl; [|done].
    apply calledIds_notify.
  - unfold notifySubscribers, subscribe. simpl. rewrite lookup_insert_eq.
    apply calledIds_notify.
  - unfold subscribe. simpl. rewrite lookup_insert_eq. simpl.
    rewrite insert_insert_eq.
    destruct (decide (cb ∈ default [] (subscribers w !! key))) as [Hin|Hout].
    + by rewrite decide_True.
    + rewrite decide_True; [done|]. apply elem_of_app. right. apply list_elem_of_here.
  - intros Hin. unfold subscribe. simpl. rewrite decide_True by done.
    destruct (subscribers w !! key) as [subs|] eqn:Hs; simpl in *.
    + by apply insert_id.
    + by apply elem_of_nil in Hin.
Qed.

(** ** X9: what unsubscribing changes *)

Lemma filter_twice (cb : Callback) (l : list Callback) :
  filter (λ c, c ≠ cb) (filter (λ c, c ≠ cb) l) = filter (λ c, c ≠ cb) l.
Proof.
  induction l as [|c l IH]; [done|].
  rewrite filter_cons. case_decide as Hc; [|done].
  rewrite filter_cons, decide_True by done. by rewrite IH.
Qed.

Lemma unsubscribe_none key cb w :
  subscribers w !! key = None → unsubscribe key cb w = w.
Proof. intros H. unfold unsubscribe. by rewrite H. Qed.

Lemma unsubscribe_rest key cb w subs c0 rest :
  subscribers w !! key = Some subs → filter (λ c, c ≠ cb) subs = c0 :: rest →
  unsubscribe key cb w = with_subscribers (<[key := c0 :: rest]> (subscribers w)) w.
Proof. intros Hs Hf. unfold unsubscribe. by rewrite Hs, Hf. Qed.

Lemma unsubscribe_subscribers key cb w :
  subscribers (unsubscribe key cb w)
  = match subscribers w !! key with
    | None => subscribers w
    | Some subs =>
        match filter (λ c, c ≠ cb) subs with
        | [] => delete key (subscribers w)
        | subs' => <[key := subs']> (subscribers w)
        end
    end.
Proof.
  unfold unsubscribe. destruct (subscribers w !! key) as [subs|]; [|done].
  destruct (filter (λ c, c ≠ cb) subs) as [|c0 rest]; cbn [length Nat.eqb]; [|done].
  cbv zeta. cbn [refreshIntervals with_subscribers subscribers].
  destruct (refreshIntervals w !! key); simpl; by rewrite delete_insert_eq.
Qed.

(** X9. After the closure returned by [subscribe] has run, its callback is
    not notified any more and the other subscribers of the key are, in the
    same order; the subscribers of other keys, the cache and the loader
    states are untouched; the key's schedule survives as long as another
    subscriber remains; running the closure a second time changes
    nothing. *)
Theorem unsubscribe_effects throws key cb d w :
  let w' := unsubscribe key cb w in
  calledIds (notifySubscribers throws key d w')
  = filter (λ c, c ≠ cb) (calledIds (notifySubscribers throws key d w)) ∧
  (∀ k', k' ≠ key → subscribers w' !! k' = subscribers w !! k') ∧
  cache w' = cache w ∧ loaders w' = loaders w ∧
  ((∃ c, c ≠ cb ∧ c ∈ default [] (subscribers w !! key)) →
     refreshIntervals w' = refreshIntervals w ∧ timers w' = timers w) ∧
  unsubscribe key cb w' = w'.
Proof.
  intros w'. subst w'.
  rewrite unsubscribe_cache, unsubscribe_loaders.
  split; [|split; [|split; [done|split; [done|split]]]].
  - unfold notifySubscribers. rewrite unsubscribe_subscribers.
    destruct (subscribers w !! key) as [subs|] eqn:Hsubs; [|by rewrite Hsubs].
    rewrite calledIds_notify.
    destruct (filter (λ c, c ≠ cb) subs) as [|c0 rest].
    + by rewrite lookup_delete_eq.
    + rewrite lookup_insert_eq. apply calledIds_notify.
  - intros k' Hne. rewrite unsubscribe_subscribers.
    destruct (subscribers w !! key) as [subs|]; [|done].
    destruct (filter (λ c, c ≠ cb) subs).
    + by rewrite lookup_delete_ne.
    + by rewrite lookup_insert_ne.
  - intros (c & Hc & Hin).
    destruct (subscribers w !! key) as [subs|] eqn:Hsubs; simpl in Hin;
      [|by apply elem_of_nil in Hin].
    destruct (filter (λ c, c ≠ cb) subs) as [|c0 rest] eqn:Hf.
    + assert (c ∈ filter (λ c, c ≠ cb) subs) as Hin' by by apply list_elem_of_filter.
      rewrite Hf in Hin'. by apply elem_of_nil in Hin'.
    + by rewrite (unsubscribe_rest key cb w subs c0 rest Hsubs Hf).
  - destruct (subscribers w !! key) as [subs|] eqn:Hsubs.
    2:{ by rewrite !(unsubscribe_none key cb w Hsubs). }
    destruct (filter (λ c, c ≠ cb) subs) as [|c0 rest] eqn:Hf.
    + apply unsubscribe_none. rewrite unsubscribe_subscribers, Hsubs, Hf.
      apply lookup_delete_eq.
    + rewrite (unsubscribe_rest key cb w subs c0 rest Hsubs Hf).
      rewrite (unsubscribe_rest key cb _ (c0 :: rest) c0 rest).
      * unfold with_subscribers. simpl. by rewrite insert_insert_eq.
      * simpl. apply lookup_insert_eq.
      * by rewrite <- Hf, filter_twice.
Qed.

(** ** X10: mounting and unmounting a consumer *)

(** X10. In a world satisfying the representation invariant, subscribing a
    callback that is not registered and unsubscribing it again restores the
    world exactly, when the key has other subscribers or no recorded
    interval.  When the key had no subscriber but a recorded interval (armed
    by a fetch that completed without subscribers), the same two steps
    cancel that interval. *)
Theorem subscribe_unsubscribe key cb w :
  World_ok w →
  cb ∉ default [] (subscribers w !! key) →
  let w' := unsubscribe key cb (subscribe key cb w) in
  ((is_Some (subscribers w !! key) ∨ refreshIntervals w !! key = None) → w' = w) ∧
  (∀ h, subscribers w !! key = None → refreshIntervals w !! key = Some h →
        refreshIntervals w' !! key = None ∧ timers w' !! h = None ∧
        subscribers w' = subscribers w ∧ cache w' = cache w).
Proof.
  intros Hok Hnotin w'. subst w'.
  assert (Hfilter : ∀ subs, cb ∉ subs → filter (λ c, c ≠ cb) (subs ++ [cb]) = subs).
  { intros subs Hn. rewrite filter_app, filter_cons, decide_False, filter_nil, app_nil_r
      by (by intros ?).
    induction subs as [|c subs IH]; [done|].
    rewrite filter_cons, decide_True.
    - rewrite IH; [done|]. intros Hin. apply Hn. by apply list_elem_of_further.
    - intros ->. apply Hn. apply list_elem_of_here. }
  assert (Hsub : subscribers (subscribe key cb w)
                 = <[key := default [] (subscribers w !! key) ++ [cb]]> (subscribers w)).
  { unfold subscribe. simpl. by rewrite decide_False. }
  assert (Hlook : subscribers (subscribe key cb w) !! key
                  = Some (default [] (subscribers w !! key) ++ [cb])).
  { rewrite Hsub. apply lookup_insert_eq. }
  specialize (Hfilter _ Hnotin).
  destruct (subscribers w !! key) as [subs|] eqn:Hsubs; cbn [default] in *.
  - destruct (subs_set w Hok key subs Hsubs) as [_ Hne].
    destruct subs as [|c subs]; [done|].
    rewrite (unsubscribe_rest key cb _ _ c subs Hlook Hfilter).
    split; [|done]. intros _. rewrite Hsub.
    destruct w. unfold with_subscribers, subscribe. simpl in *.
    f_equal. rewrite insert_insert_eq. by apply insert_id.
  - unfold unsubscribe. rewrite Hlook, Hfilter. cbn [length Nat.eqb]. cbv zeta.
    cbn [refreshIntervals with_subscribers subscribers]. rewrite Hsub.
    assert (Hdel : delete key (<[key := []]> (<[key := [] ++ [cb]]> (subscribers w)))
                   = subscribers w).
    { rewrite insert_insert_eq, delete_insert_eq. by apply delete_id. }
    change (refreshIntervals (subscribe key cb w)) with (refreshIntervals w).
    split.
    + intros [[? ?]|Hnone]; [done|]. rewrite Hnone, Hdel.
      destruct w. unfold with_subscribers, subscribe. simpl in *. done.
    + intros h _ Hh. rewrite Hh.
      cbn [refreshIntervals timers subscribers cache with_refreshIntervals clearInterval
           with_subscribers].
      rewrite !lookup_delete_eq. by rewrite Hdel.
Qed.

Lemma subscribe_unsubscribe_witness :
  let w := (fetchData (λ _ _, false) 0 [] 50 "k" 0%nat (λ _, Fulfilled (JNum 1)) noOptions
              emptyWorld).2 in
  let w' := unsubscribe "k" 1%nat (subscribe "k" 1%nat w) in
  refreshIntervals w !! "k" = Some 1%positive ∧
  refreshIntervals w' !! "k" = None ∧ timers w' !! 1%positive = None.
Proof.
  intros w w'.
  assert (Hok : World_ok w).
  { apply (reachable_ok (λ _ _, false)).
    exists [(0, EvFetchData "k" noOptions);
            (50, EvSettled "k" 0%nat noOptions (mkLoaderState false 0 0 None) (Fulfilled (JNum 1)))].
    reflexivity. }
  destruct (subscribe_unsubscribe "k" 1%nat w Hok) as [_ Hcancel].
  - vm_compute. apply not_elem_of_nil.
  - split; [reflexivity|].
    destruct (Hcancel 1%positive eq_refl eq_refl) as (Hri & Ht & _). by split.
Defined.

(** * The convenience methods *)

(** ** X11: cache keys and their arguments *)

Lemma append_nil (s : string) : "" +:+ s = s.
Proof. done. Qed.

Lemma append_cons (c : Ascii.ascii) (a s : string) : String c a +:+ s = String c (a +:+ s).
Proof. done. Qed.

Lemma append_colon_inj (a a' b b' : string) :
  occurs colon a = false → occurs colon a' = false →
  a +:+ ":" +:+ b = a' +:+ ":" +:+ b' → a = a' ∧ b = b'.
Proof.
  revert a'. induction a as [|c a IH]; intros [|c' a'] Ha Ha' Heq;
    repeat (rewrite append_nil in Heq || rewrite append_cons in Heq); simpl in Ha, Ha'.
  - split; [done|]. congruence.
  - exfalso. injection Heq as Hc _. subst c'.
    apply orb_false_iff in Ha' as [Hc _]. done.
  - exfalso. injection Heq as Hc _. subst c.
    apply orb_false_iff in Ha as [Hc _]. done.
  - injection Heq as Hc Heq. subst c'.
    apply orb_false_iff in Ha as [_ Ha]. apply orb_false_iff in Ha' as [_ Ha'].
    destruct (IH a' Ha Ha' Heq) as [-> ->]. done.
Qed.

Lemma append_inj_r (p a b : string) : p +:+ a = p +:+ b → a = b.
Proof.
  induction p as [|c p IH]; rewrite ?append_nil, ?append_cons; [done|].
  intros [= H]. by apply IH.
Qed.

(** X11. The key of [getProjectDonations] and of [getAvailableCredits]
    determines the argument.  The keys of [getProjectsByStatus] and
    [getUserProfile] determine both arguments when the first one holds no
    colon; with a colon in it two different requests share one key, hence
    one cache entry. *)
Theorem cacheKeys_injective (a a' b b' : string) :
  (donationsKey a = donationsKey a' → a = a') ∧
  (creditsKey a = creditsKey a' → a = a') ∧
  (occurs colon a = false → occurs colon a' = false →
     (projectsKey a b = projectsKey a' b' → a = a' ∧ b = b') ∧
     (profileKey a b = profileKey a' b' → a = a' ∧ b = b')) ∧
  projectsKey "pending:buyer" "admin" = projectsKey "pending" "buyer:admin" ∧
  profileKey "u1:seller" "buyer" = profileKey "u1" "seller:buyer".
Proof.
  split; [apply (append_inj_r "donations:")|].
  split; [apply (append_inj_r "credits:")|].
  split; [|done].
  intros Ha Ha'. split; intros Heq.
  - apply (append_inj_r "projects:") in Heq. by apply append_colon_inj.
  - apply (append_inj_r "profile:") in Heq. by apply append_colon_inj.
Qed.

(** ** X12: the five methods never share a key *)

(** X12. Whatever their arguments, two different convenience methods build
    different cache keys: no method reads or overwrites the entry, loader
    state, subscribers or schedule of another. *)
Theorem cacheKeys_disjoint (a b c d e f : string) :
  let credits := creditsKey a in
  let projects := projectsKey b c in
  let donations := donationsKey d in
  let profile := profileKey e f in
  credits ≠ projects ∧ credits ≠ donations ∧ credits ≠ insightsKey ∧ credits ≠ profile ∧
  projects ≠ donations ∧ projects ≠ insightsKey ∧ projects ≠ profile ∧
  donations ≠ insightsKey ∧ donations ≠ profile ∧
  insightsKey ≠ profile.
Proof.
  unfold creditsKey, projectsKey, donationsKey, profileKey, insightsKey.
  rewrite !append_cons. repeat split; discriminate.
Qed.

(** ** X13: an error response with a body *)

(** A fetch through [jsonFetcher] that is answered at once with a body. *)
Lemma jsonFetcher_body throws t0 t1 key f (http : Http) o w ok statusText v :
  cache w !! key = None →
  isLoading (getLoaderState key w) = false →
  http 0%nat = HttpResponse ok statusText (Some v) →
  let res := fetchData throws t0 [] t1 key f (jsonFetcher http) o w in
  outcome res.1 = Some (Fulfilled v) ∧
  invocations res.1 = 1%nat ∧
  cache res.2 !! key = Some (mkCacheEntry v t1 (t1 + cacheDurationOf o)) ∧
  calledIds (effects res.1) = default [] (subscribers w !! key).
Proof.
  intros Hnone Hidle Hhttp res. subst res.
  unfold fetchData, fetchData_begin, getFromCache. rewrite Hnone.
  cbn [truthy andb]. rewrite Hidle. cbn [run foldl].
  set (w1 := setLoaderState key _ w).
  assert (Hrun : executeWithRetry (jsonFetcher http) key (retryOnErrorOf o) w1
                 = mkRetryRun (Fulfilled v) 1 []).
  { unfold executeWithRetry.
    destruct (negb (retryOnErrorOf o) || _); unfold jsonFetcher; simpl; by rewrite Hhttp. }
  rewrite Hrun. cbn [settled fetcherCalls delays fetchData_continue].
  pose proof (fetchData_then_cache throws t1 key f o v w1) as Hc.
  pose proof (fetchData_then_effects throws t1 key f o v w1) as Hfx.
  destruct (fetchData_then throws t1 key f o v w1) as [fx w2]. simpl in *.
  split; [done|]. split; [done|]. split; [by rewrite Hc, lookup_insert_eq|].
  rewrite Hfx. destruct (subscribers w !! key); simpl; [apply calledIds_notify|done].
Qed.

(** X13. Four of the methods do not look at the status of the response: an
    error response that carries a JSON body (a 500 with [{error: ...}]) is
    taken for the data, returned, stored in the cache for the method's
    duration and pushed to the subscribers, after a single request.
    [getAvailableCredits] checks [response.ok]: answered like that on every
    attempt, it makes 4 requests, rejects with
    [Error('Failed to fetch credits: ' + statusText)] and stores nothing. *)
Theorem error_response_as_data throws t0 t1 f (http : Http) statusText v w (a b : string) :
  let served := λ (key : string) (duration : Z) (res : Report * World),
    cache w !! key = None → isLoading (getLoaderState key w) = false →
    outcome res.1 = Some (Fulfilled v) ∧ invocations res.1 = 1%nat ∧
    cache res.2 !! key = Some (mkCacheEntry v t1 (t1 + duration)) ∧
    calledIds (effects res.1) = default [] (subscribers w !! key) in
  (http 0%nat = HttpResponse false statusText (Some v) →
     served (projectsKey a b) 15000 (getProjectsByStatus throws t0 [] t1 f http a b w) ∧
     served (donationsKey a) 60000 (getProjectDonations throws t0 [] t1 f http a w) ∧
     served insightsKey 5000 (getMarketInsights throws t0 [] t1 f http w) ∧
     served (profileKey a b) 120000 (getUserProfile throws t0 [] t1 f http a b w)) ∧
  ((∀ i, http i = HttpResponse false statusText (Some v)) →
     cache w !! creditsKey a = None → isLoading (getLoaderState (creditsKey a) w) = false →
     errorCount (getLoaderState (creditsKey a) w) = 0%nat →
     let res := getAvailableCredits throws t0 [] t1 f http a w in
     outcome res.1 = Some (Rejected (NewError ("Failed to fetch credits: " +:+ statusText))) ∧
     invocations res.1 = 4%nat ∧
     cache res.2 !! creditsKey a = None).
Proof.
  intros served. split.
  - intros Hhttp. subst served. cbv beta.
    unfold getProjectsByStatus, getProjectDonations, getMarketInsights, getUserProfile.
    split; [|split; [|split]]; intros Hnone Hidle.
    + apply (jsonFetcher_body throws t0 t1 _ f http projectsOptions w false statusText v);
        done.
    + apply (jsonFetcher_body throws t0 t1 _ f http donationsOptions w false statusText v);
        done.
    + apply (jsonFetcher_body throws t0 t1 _ f http insightsOptions w false statusText v);
        done.
    + apply (jsonFetcher_body throws t0 t1 _ f http profileOptions w false statusText v);
        done.
  - intros Hhttp Hnone Hidle Hzero res. subst res. unfold getAvailableCredits.
    assert (Hfail : ∀ i, ∃ err, creditsFetcher http i = Rejected err).
    { intros i. unfold creditsFetcher. rewrite Hhttp. eauto. }
    destruct (fetchData_failing_step throws t0 t1 (creditsKey a) f (creditsFetcher http)
                creditsOptions w Hnone Hidle Hfail) as ((err & Hout) & Hinv & Hc & _).
    rewrite Hzero in Hinv. simpl in Hinv.
    split; [|by split].
    (* the error is the one built from the status text *)
    revert Hout. unfold fetchData, fetchData_begin, getFromCache. rewrite Hnone.
    cbn [truthy andb]. rewrite Hidle. cbn [run foldl].
    set (w1 := setLoaderState (creditsKey a) _ w).
    destruct (executeWithRetry_all_rejected (creditsFetcher http) (creditsKey a)
                (retryOnErrorOf creditsOptions) w1 Hfail) as (e & Hs & Hlast & _).
    rewrite Hs. cbn [fetchData_continue]. unfold fetchData_catch.
    cbn [cache setLoaderState with_loaders w1]. rewrite Hnone. simpl.
    intros _. unfold creditsFetcher in Hlast. rewrite Hhttp in Hlast. simpl in Hlast.
    by injection Hlast as <-.
Qed.

Lemma error_response_as_data_witness :
  let http : Http := λ _, HttpResponse false "Internal Server Error" (Some (JObj 0)) in
  let res := getProjectsByStatus (λ _ _, false) 0 [] 80 0%nat http "pending" "admin" emptyWorld in
  outcome res.1 = Some (Fulfilled (JObj 0)) ∧
  cache res.2 !! "projects:pending:admin" = Some (mkCacheEntry (JObj 0) 80 15080).
Proof.
  intros http res.
  destruct (error_response_as_data (λ _ _, false) 0 80 0%nat http "Internal Server Error"
              (JObj 0) emptyWorld "pending" "admin") as [Hjson _].
  destruct (Hjson eq_refl) as (Hprojects & _).
  destruct (Hprojects eq_refl eq_refl) as (Hout & _ & Hcache & _).
  split; [exact Hout|exact Hcache].
Defined.

(** ** X14: how long a method serves what it fetched *)

Lemma window_spec (o : Options) (x : Z) :
  (x <=? cacheDurationOf o) && (10 * x <=? 8 * maxAgeOf o) = (x <=? windowOf o).
Proof.
  unfold windowOf.
  assert (Hdiv : 10 * x ≤ 8 * maxAgeOf o ↔ x ≤ 8 * maxAgeOf o / 10).
  { split; intros H.
    - apply Z.div_le_lower_bound; lia.
    - pose proof (Z.mul_div_le (8 * maxAgeOf o) 10 ltac:(lia)). lia. }
  destruct (Z.leb_spec x (cacheDurationOf o)); destruct (Z.leb_spec (10 * x) (8 * maxAgeOf o));
    destruct (Z.leb_spec x (Z.min (cacheDurationOf o) (8 * maxAgeOf o / 10))); simpl;
    try done; lia.
Qed.

(** X14. A value fetched at [t0] under some options is served from the
    cache to a later call with the same options exactly when it is truthy
    and at most [windowOf] milliseconds old, where the window is the smaller
    of [cacheDuration] and 80% of 5000 (critical) or of 30000.  For the five
    methods: 4000 ms for credits and market insights, 15000 for project
    status, and 24000 for donations and profiles although these are stored
    for 60000 and 120000. *)
Theorem freshness_window throws t0 key f o d w t evs t1 f' (fetcher' : Fetcher) :
  let w1 := (fetchData_then throws t0 key f o d w).2 in
  (invocations (fetchData throws t evs t1 key f' fetcher' o w1).1 = 0%nat
   ↔ truthy d = true ∧ t - t0 ≤ windowOf o) ∧
  windowOf creditsOptions = 4000 ∧ windowOf projectsOptions = 15000 ∧
  windowOf donationsOptions = 24000 ∧ windowOf insightsOptions = 4000 ∧
  windowOf profileOptions = 24000.
Proof.
  intros w1. split; [|done].
  pose proof (fetchData_after_store_cases throws t0 key f o d w t evs t1 f' fetcher' o) as H.
  cbv zeta in H. fold w1 in H.
  assert (Hcond : truthy d && (t <=? t0 + cacheDurationOf o) && (10 * (t - t0) <=? 8 * maxAgeOf o)
                  = truthy d && (t - t0 <=? windowOf o)).
  { rewrite <- andb_assoc, <- window_spec. do 2 f_equal.
    destruct (Z.leb_spec t (t0 + cacheDurationOf o));
      destruct (Z.leb_spec (t - t0) (cacheDurationOf o)); try done; lia. }
  rewrite Hcond in H.
  destruct (truthy d) eqn:Htruthy; simpl in H.
  - destruct (Z.leb_spec (t - t0) (windowOf o)) as [Hle|Hgt].
    + rewrite H. simpl. done.
    + destruct H as [_ Hpos]. split; [lia|]. intros [_ ?]. lia.
  - destruct H as [_ Hpos]. split; [lia|]. by intros [? _].
Qed.

(** * CreditPurchaseOptimizer.selectOptimalCombination *)

Lemma supply_nonneg available : 0 ≤ supply available.
Proof.
  induction available as [|c l IH]; simpl; [done|].
  destruct (availableQuantity c); lia.
Qed.

Section OptimizerProofs.

Context {Num : Type}.
Context (parseFloat : string → Num) (ofZ : Z → Num).
Context (add mul div : Num → Num → Num).

Local Abbreviation loop := (selectLoop parseFloat ofZ add mul).
Local Abbreviation charge :=
  (λ (cost : Num) (p : Credit * Z), add cost (mul (ofZ p.2) (parseFloat (pricePerCredit p.1)))).

(** The picks and the total do not depend on what was selected or charged
    before; the cost is the running cost charged with the picks in order. *)
Lemma selectLoop_acc rest quantity selected total cost cost' :
  (loop rest quantity selected total cost).1.1
  = selected ++ (loop rest quantity [] total cost').1.1 ∧
  (loop rest quantity selected total cost).1.2 = (loop rest quantity [] total cost').1.2 ∧
  (loop rest quantity selected total cost).2
  = foldl charge cost (loop rest quantity [] total cost').1.1.
Proof.
  revert selected total cost cost'.
  induction rest as [|credit rest IH]; intros selected total cost cost'; cbn [selectLoop].
  - simpl. by rewrite app_nil_r.
  - destruct (total >=? quantity); [simpl; by rewrite app_nil_r|].
    destruct (availableQuantity credit) as [a|]; [|apply IH].
    destruct (Z.min a (quantity - total) >? 0); [|apply IH].
    set (p := (credit, Z.min a (quantity - total))).
    destruct (IH (selected ++ [p]) (total + p.2) (charge cost p) cost') as (H1 & H2 & H3).
    destruct (IH ([] ++ [p]) (total + p.2) (charge cost' p) cost') as (H4 & H5 & H6).
    simpl in *. rewrite H1, H2, H3, H4, H5.
    by rewrite <- app_assoc.
Qed.

(** One turn of the loop, on the picks and the total. *)
Lemma selectLoop_turn credit rest quantity total cost :
  let out := loop (credit :: rest) quantity [] total cost in
  if total >=? quantity then out.1.1 = [] ∧ out.1.2 = total
  else if sellable credit
  then ∃ a, availableQuantity credit = Some a ∧ 0 < a ∧
       let canAdd := Z.min a (quantity - total) in
       out.1.1 = (credit, canAdd) :: (loop rest quantity [] (total + canAdd) cost).1.1 ∧
       out.1.2 = (loop rest quantity [] (total + canAdd) cost).1.2
  else out.1.1 = (loop rest quantity [] total cost).1.1 ∧
       out.1.2 = (loop rest quantity [] total cost).1.2.
Proof.
  cbv zeta. cbn [selectLoop]. unfold sellable.
  destruct (Z.geb_spec total quantity) as [Hge|Hlt]; [done|].
  destruct (availableQuantity credit) as [a|]; [|done].
  destruct (Z.gtb_spec a 0) as [Hpos|Hnon].
  - replace (Z.min a (quantity - total) >? 0) with true
      by (symmetry; rewrite Z.gtb_ltb; apply Z.ltb_lt; lia).
    exists a. split; [done|]. split; [lia|].
    destruct (selectLoop_acc rest quantity ([] ++ [(credit, Z.min a (quantity - total))])
                (total + Z.min a (quantity - total))
                (charge cost (credit, Z.min a (quantity - total))) cost) as (H1 & H2 & _).
    simpl in *. by rewrite H1, H2.
  - replace (Z.min a (quantity - total) >? 0) with false; [done|].
    symmetry. rewrite Z.gtb_ltb. apply Z.ltb_ge. lia.
Qed.

(** The invariant of the loop, from any running total. *)
Lemma selectLoop_spec rest quantity total cost :
  let picks := (loop rest quantity [] total cost).1.1 in
  let tot := (loop rest quantity [] total cost).1.2 in
  tot = total + sumZ (picks.*2) ∧
  Forall (λ p : Credit * Z, 0 < p.2 ∧ ∃ a, availableQuantity p.1 = Some a ∧ p.2 ≤ a) picks ∧
  picks.*1 `prefix_of` filter (λ c, sellable c = true) rest ∧
  (total ≤ quantity → tot = Z.min quantity (total + supply rest)) ∧
  (quantity ≤ total → picks = []) ∧
  (∀ i c n, picks !! i = Some (c, n) → (S i < length picks)%nat →
            availableQuantity c = Some n).
Proof.
  revert total. induction rest as [|credit rest IH]; intros total; cbv zeta.
  - simpl. repeat split; try done; lia.
  - pose proof (selectLoop_turn credit rest quantity total cost) as Hturn. cbv zeta in Hturn.
    pose proof (supply_nonneg rest) as Hsup.
    destruct (Z.geb_spec total quantity) as [Hge|Hlt].
    { destruct Hturn as [-> ->].
      pose proof (supply_nonneg (credit :: rest)) as Hsup'.
      split; [simpl; lia|]. split; [done|]. split; [apply prefix_nil|].
      split; [lia|]. split; [done|]. intros i c n Hi. done. }
    destruct (sellable credit) eqn:Hsell.
    + destruct Hturn as (a & Ha & Hpos & -> & ->).
      set (canAdd := Z.min a (quantity - total)).
      destruct (IH (total + canAdd)) as (IHsum & IHall & IHpre & IHmin & IHnil & IHfull).
      cbv zeta in *.
      split; [rewrite IHsum, fmap_cons; unfold sumZ; cbn [foldr snd]; lia|]. split.
      { constructor; [|done]. simpl. split; [lia|]. exists a. split; [done|]. lia. }
      split.
      { rewrite filter_cons_True by done. simpl. by apply prefix_cons. }
      split.
      { intros _. rewrite IHmin by lia. simpl. rewrite Ha. lia. }
      split; [lia|].
      intros [|i] c n Hi Hlen; simpl in *.
      * injection Hi as <- <-.
        destruct (Z_le_gt_dec quantity (total + canAdd)) as [Hfull|Hroom].
        -- rewrite (IHnil Hfull) in Hlen. simpl in Hlen. lia.
        -- rewrite Ha. f_equal. lia.
      * apply (IHfull i c n Hi). lia.
    + destruct Hturn as [-> ->].
      destruct (IH total) as (IHsum & IHall & IHpre & IHmin & IHnil & IHfull).
      cbv zeta in *.
      split; [done|]. split; [done|]. split.
      { by rewrite filter_cons_False by (by rewrite Hsell). }
      split; [|by split].
      intros Hle. rewrite IHmin by done. simpl. unfold sellable in Hsell.
      destruct (availableQuantity credit) as [a|]; [|done].
      destruct (Z.gtb_spec a 0); [done|]. lia.
Qed.

(** X15. The selection never takes more of a credit than it has, never a
    quantity that is not positive, and never more in total than requested;
    the total is the sum of the selected quantities and the cost is the
    running sum of quantity times parsed price over the selection, in
    order. *)
Theorem selectOptimalCombination_within available quantity :
  let r := selectOptimalCombination parseFloat ofZ add mul div available quantity in
  Forall (λ p : Credit * Z,
            p.1 ∈ available ∧ 0 < p.2 ∧ ∃ a, availableQuantity p.1 = Some a ∧ p.2 ≤ a)
         (credits r) ∧
  totalQuantity r = sumZ ((credits r).*2) ∧
  0 ≤ totalQuantity r ∧
  (0 ≤ quantity → totalQuantity r ≤ quantity) ∧
  totalCost r = foldl charge (ofZ 0) (credits r) ∧
  averagePrice r = div (totalCost r) (ofZ (totalQuantity r)).
Proof.
  intros r. subst r. unfold selectOptimalCombination.
  destruct (selectLoop_spec available quantity 0 (ofZ 0))
    as (Hsum & Hall & Hpre & Hmin & Hnil & _).
  destruct (selectLoop_acc available quantity [] 0 (ofZ 0) (ofZ 0)) as (_ & _ & Hcost).
  cbv zeta in *.
  destruct (loop available quantity [] 0 (ofZ 0)) as [[picks tot] cost]. simpl in *.
  pose proof (supply_nonneg available) as Hsup.
  split.
  { apply Forall_forall. intros p Hp. rewrite Forall_forall in Hall.
    split; [|by apply Hall].
    assert (Hin : p.1 ∈ picks.*1) by (apply list_elem_of_fmap; eauto).
    destruct Hpre as [k Hk].
    assert (Hin' : p.1 ∈ filter (λ c, sellable c = true) available)
      by (rewrite Hk; apply elem_of_app; by left).
    by apply list_elem_of_filter in Hin' as [_ ?]. }
  split; [lia|]. split.
  { destruct (Z_le_gt_dec 0 quantity) as [Hq|Hq].
    - rewrite (Hmin Hq). lia.
    - rewrite Hsum, (Hnil ltac:(lia)). done. }
  split; [|done].
  intros Hq. rewrite (Hmin Hq). lia.
Qed.

(** X16. The total selected is the request capped by what the list can
    supply (the sum of its positive quantities), and 0 for a request that is
    not positive: the loop fills the request whenever the supply allows. *)
Theorem selectOptimalCombination_fills available quantity :
  totalQuantity (selectOptimalCombination parseFloat ofZ add mul div available quantity)
  = Z.max 0 (Z.min quantity (supply available)).
Proof.
  unfold selectOptimalCombination.
  destruct (selectLoop_spec available quantity 0 (ofZ 0)) as (Hsum & _ & _ & Hmin & Hnil & _).
  cbv zeta in *.
  destruct (loop available quantity [] 0 (ofZ 0)) as [[picks tot] cost]. simpl in *.
  pose proof (supply_nonneg available) as Hsup.
  destruct (Z_le_gt_dec 0 quantity) as [Hq|Hq].
  - rewrite (Hmin Hq). lia.
  - rewrite Hsum, (Hnil ltac:(lia)). simpl. lia.
Qed.

(** X17. The selection walks the list in order: the selected credits are the
    first credits with a positive quantity, none skipped, each taken whole
    except possibly the last; credits without [availableQuantity] are never
    selected.  When nothing is selected the average price is 0/0. *)
Theorem selectOptimalCombination_greedy available quantity :
  let r := selectOptimalCombination parseFloat ofZ add mul div available quantity in
  (credits r).*1 `prefix_of` filter (λ c, sellable c = true) available ∧
  (∀ i c n, credits r !! i = Some (c, n) → (S i < length (credits r))%nat →
            availableQuantity c = Some n) ∧
  (credits r = [] → averagePrice r = div (ofZ 0) (ofZ 0)).
Proof.
  intros r. subst r. unfold selectOptimalCombination.
  destruct (selectLoop_spec available quantity 0 (ofZ 0)) as (Hsum & _ & Hpre & _ & _ & Hfull).
  destruct (selectLoop_acc available quantity [] 0 (ofZ 0) (ofZ 0)) as (_ & _ & Hcost).
  cbv zeta in *.
  destruct (loop available quantity [] 0 (ofZ 0)) as [[picks tot] cost]. simpl in *.
  split; [done|]. split; [done|].
  intros ->. simpl in *. by rewrite Hcost, Hsum.
Qed.

End OptimizerProofs.
